(** * Golden-section line search and the least-squares wrapper

    A shallow embedding of [goldensection] (src/line_search.py, as loaded in
    the chapter 9 notebook) and of the class [least_squares]
    (src/least_squares.py, as loaded in the chapter 1 notebook), over the real
    numbers: Python floats are read as exact reals, numpy arrays as lists of
    reals.  What holds of the line search in exact arithmetic only is set
    against [Float64.goldensection], the same function over binary64
    numbers. *)

From Stdlib Require Import Floats.
From Stdlib Require Uint63.
From Stdlib Require Import Reals Lra Lia List Arith ZArith Bool.
Import ListNotations.
Open Scope R_scope.

(** ** Results, exceptions and the state monad *)

(** The exceptions the two programs can raise.  [RecursionError] is what
    Python raises when [_gs] has used up the interpreter's recursion depth. *)
Inductive exn : Type :=
| BracketingFailed
    (* RuntimeError("Bracketing minimum failed. Check if func is convex,
       start point, and search direction.") *)
| RecursionError
| ShapeMismatch (A_shape x_shape : nat * nat)
    (* ValueError(f"Shape mismatch, A: {self.A.shape}, x: {_x.shape}.") *)
| BroadcastError (l_shape r_shape : nat * nat)
    (* numpy: operands could not be broadcast together *)
| MatmulError (l_shape r_shape : nat * nat).
    (* numpy: matmul core dimension mismatch *)

Inductive result (A : Type) : Type :=
| Ok (a : A)
| Raise (e : exn).
Arguments Ok {A} a.
Arguments Raise {A} e.

(** A computation over a mutable state [S] that may raise.  The state that
    was reached is kept when an exception propagates. *)
Definition M (S A : Type) : Type := S -> result A * S.

Definition ret {S A} (a : A) : M S A := fun s => (Ok a, s).

Definition raise {S A} (e : exn) : M S A := fun s => (Raise e, s).

Definition bind {S A B} (m : M S A) (k : A -> M S B) : M S B :=
  fun s => match m s with
           | (Ok a, s') => k a s'
           | (Raise e, s') => (Raise e, s')
           end.

Notation "v <- m ;; k" := (bind m (fun v => k))
  (at level 61, m at next level, right associativity).

(** ** Vectors (numpy arrays of one axis, or scalars as one-element vectors) *)

Definition vec : Type := list R.

Fixpoint map2 {A B C} (f : A -> B -> C) (u : list A) (v : list B) : list C :=
  match u, v with
  | a :: u', b :: v' => f a b :: map2 f u' v'
  | _, _ => []
  end.

(** Element-wise operations.  Operands are of one dimension throughout the
    development (numpy would broadcast or raise otherwise). *)
Definition vadd (u v : vec) : vec := map2 Rplus u v.
Definition vsub (u v : vec) : vec := map2 Rminus u v.
(** [c * v] *)
Definition smul (c : R) (v : vec) : vec := map (fun a => c * a) v.
(** [v * c] *)
Definition vmuls (v : vec) (c : R) : vec := map (fun a => a * c) v.
(** [v / c] *)
Definition vdivs (v : vec) (c : R) : vec := map (fun a => a / c) v.

Definition sumsq (v : list R) : R := fold_right (fun a s => a * a + s) 0 v.

(** [np.linalg.norm] *)
Definition norm (v : list R) : R := sqrt (sumsq v).

(** A float division: [None] stands for the non-finite value (inf or nan)
    that numpy produces when the divisor is zero. *)
Definition fdiv (a d : R) : option R :=
  if Req_dec_T d 0 then None else Some (a / d).

(** [u / v], element-wise. *)
Definition vdiv (u v : vec) : list (option R) := map2 fdiv u v.

Fixpoint all_finite (l : list (option R)) : option (list R) :=
  match l with
  | [] => Some []
  | None :: _ => None
  | Some a :: l' =>
      match all_finite l' with
      | Some v => Some (a :: v)
      | None => None
      end
  end.

Definition sum (v : list R) : R := fold_right Rplus 0 v.

(** [np.average]: the sum over the number of entries.  A non-finite entry
    makes the sum non-finite, and so does an empty array (0/0). *)
Definition average (l : list (option R)) : option R :=
  match all_finite l with
  | Some (a :: v) => Some (sum (a :: v) / INR (length (a :: v)))
  | _ => None
  end.

(** ** goldensection *)

(** The cell [nfev] of [goldensection], together with the record a spy
    wrapped around [func] would keep: the arguments [func] was called with,
    oldest first. *)
Record counter : Type := Counter {
  nfev : nat;
  invoked : list vec
}.

(** The dictionary [goldensection] returns. *)
Record ls_result : Type := LsResult {
  res_x : vec;
  res_t : option R;
  res_nfev : nat
}.

(** The arguments of one activation of [_gs]. *)
Record frame : Type := Frame {
  f_x1 : vec;
  f_x4 : vec;
  f_h : option vec;
  f_x2 : option vec;
  f_x3 : option vec;
  f_fx2 : option R;
  f_fx3 : option R
}.

Definition iphi : R := (sqrt 5 - 1) / 2.   (* 1/phi *)
Definition iphi2 : R := (3 - sqrt 5) / 2.  (* 1/phi^2 *)

Section goldensection.

Variable func : vec -> R.
Variables x dx : vec.
Variable precision : R.

Definition _f (p : vec) : M counter R :=
  fun st => (Ok (func p),
             {| nfev := S (nfev st); invoked := invoked st ++ [p] |}).

(** [x if x is not None else d] *)
Definition or_else {A} (o : option A) (d : A) : A :=
  match o with Some a => a | None => d end.

Definition known (o : option R) (p : vec) : M counter R :=
  match o with Some v => ret v | None => _f p end.

(** [_gs]; [limit] is the recursion depth still available. *)
Fixpoint _gs (limit : nat) (x1 x4 : vec) (h x2 x3 : option vec)
    (fx2 fx3 : option R) {struct limit} : M counter vec :=
  match limit with
  | O => raise RecursionError
  | S limit' =>
      let h := or_else h (vsub x4 x1) in
      if Rle_dec (norm h) precision then ret (vdivs (vadd x1 x4) 2)
      else
        let x2 := or_else x2 (vadd x1 (smul iphi2 h)) in
        let x3 := or_else x3 (vadd x1 (smul iphi h)) in
        fx2 <- known fx2 x2 ;;
        fx3 <- known fx3 x3 ;;
        if Rlt_dec fx2 fx3
        then _gs limit' x1 x3 (Some (vmuls h iphi)) None (Some x2)
                 None (Some fx2)
        else _gs limit' x2 x4 (Some (vmuls h iphi)) (Some x3) None
                 (Some fx3) None
  end.

(** The body of [_gs] up to its tail call: the value it returns, or the
    arguments it hands to the next activation. *)
Definition activation (a : frame) : M counter (vec + frame) :=
  let h := or_else (f_h a) (vsub (f_x4 a) (f_x1 a)) in
  if Rle_dec (norm h) precision
  then ret (inl (vdivs (vadd (f_x1 a) (f_x4 a)) 2))
  else
    let x2 := or_else (f_x2 a) (vadd (f_x1 a) (smul iphi2 h)) in
    let x3 := or_else (f_x3 a) (vadd (f_x1 a) (smul iphi h)) in
    fx2 <- known (f_fx2 a) x2 ;;
    fx3 <- known (f_fx3 a) x3 ;;
    if Rlt_dec fx2 fx3
    then ret (inr (Frame (f_x1 a) x3 (Some (vmuls h iphi)) None (Some x2)
                         None (Some fx2)))
    else ret (inr (Frame x2 (f_x4 a) (Some (vmuls h iphi)) (Some x3) None
                         (Some fx3) None)).

Definition _gs_frame (limit : nat) (a : frame) : M counter vec :=
  _gs limit (f_x1 a) (f_x4 a) (f_h a) (f_x2 a) (f_x3 a) (f_fx2 a) (f_fx3 a).

(** The point [x + t*dx]. *)
Definition ray (t : R) : vec := vadd x (smul t dx).

(** The [for _ in range(64)] loop with its [else] branch: [n] iterations
    are left, [t] is the current multiplier (a Python integer). *)
Fixpoint bracketing (n : nat) (t : Z) : M counter Z :=
  match n with
  | O => raise BracketingFailed
  | S n' =>
      a <- _f (ray (IZR t)) ;;
      b <- _f x ;;
      if Rgt_dec a b then ret t else bracketing n' (t * 2)%Z
  end.

Definition read_nfev : M counter nat := fun st => (Ok (nfev st), st).

(** The step size recovered from the point found. *)
Definition step_of (xopt : vec) : option R := average (vdiv (vsub xopt x) dx).

Definition goldensection_from (limit : nat) : M counter ls_result :=
  t <- bracketing 64 1%Z ;;
  xopt <- _gs limit x (ray (IZR t)) None None None None None ;;
  n <- read_nfev ;;
  ret {| res_x := xopt; res_t := step_of xopt; res_nfev := n |}.

(** A call of [goldensection]: [nfev = 0] and nothing evaluated yet. *)
Definition goldensection (limit : nat) : result ls_result * counter :=
  goldensection_from limit {| nfev := 0; invoked := [] |}.

End goldensection.


(** ** least_squares *)

(** A numpy array of two axes, stored row by row. *)
Record matrix : Type := Matrix {
  nrows : nat;
  ncols : nat;
  entries : list R
}.

Definition shape (m : matrix) : nat * nat := (nrows m, ncols m).

(** A numpy array of any number of axes, stored row by row. *)
Record ndarray : Type := NdArray {
  nd_shape : list nat;
  nd_data : list R
}.

(** What a caller may pass as [x]: something that is not a numpy array (a
    Python sequence, given by its numbers in the order [np.array] stores
    them), or a numpy array. *)
Inductive pyarg : Type :=
| Sequence (vals : list R)
| Array (a : ndarray).

(** [.reshape(-1, 1)] *)
Definition reshape_column (vals : list R) : matrix :=
  {| nrows := length vals; ncols := 1; entries := vals |}.

(** The local [_x] of [__call__] once the two coercion branches have run. *)
Definition coerce (x : pyarg) : matrix :=
  match x with
  | Sequence vals => reshape_column vals
  | Array a =>
      if negb (length (nd_shape a) =? 2)%nat
         || negb (nth 1 (nd_shape a) 0%nat =? 1)%nat
      then reshape_column (nd_data a)
      else {| nrows := nth 0 (nd_shape a) 0%nat;
              ncols := nth 1 (nd_shape a) 0%nat;
              entries := nd_data a |}
  end.

Definition row (m : matrix) (i : nat) : list R :=
  firstn (ncols m) (skipn (i * ncols m) (entries m)).

Definition col (m : matrix) (j : nat) : list R :=
  map (fun i => nth (i * ncols m + j) (entries m) 0) (seq 0 (nrows m)).

Definition dot (u v : list R) : R := sum (map2 Rmult u v).

(** [l @ r] *)
Definition matmul (l r : matrix) : result matrix :=
  if (ncols l =? nrows r)%nat
  then Ok {| nrows := nrows l;
             ncols := ncols r;
             entries :=
               flat_map (fun i => map (fun j => dot (row l i) (col r j))
                                      (seq 0 (ncols r)))
                        (seq 0 (nrows l)) |}
  else Raise (MatmulError (shape l) (shape r)).

(** numpy's broadcasting rule for one axis. *)
Definition broadcast_dim (m n : nat) : option nat :=
  if (m =? n)%nat then Some m
  else if (m =? 1)%nat then Some n
  else if (n =? 1)%nat then Some m
  else None.

(** The entry read at [(i, j)] of the broadcast result: an axis of length one
    is read at index 0. *)
Definition bcast_at (m : matrix) (i j : nat) : R :=
  nth ((if (nrows m =? 1)%nat then 0 else i) * ncols m
       + (if (ncols m =? 1)%nat then 0 else j))%nat
      (entries m) 0.

(** [l - r] *)
Definition msub (l r : matrix) : result matrix :=
  match broadcast_dim (nrows l) (nrows r),
        broadcast_dim (ncols l) (ncols r) with
  | Some k, Some c =>
      Ok {| nrows := k;
            ncols := c;
            entries :=
              flat_map (fun i => map (fun j => bcast_at l i j - bcast_at r i j)
                                     (seq 0 c))
                       (seq 0 k) |}
  | _, _ => Raise (BroadcastError (shape l) (shape r))
  end.

(** The attributes of an instance. *)
Record least_squares : Type := LeastSquares {
  A : matrix;
  b : matrix
}.

Definition __init__ (A b : matrix) : least_squares := {| A := A; b := b |}.

(** Reading an attribute of [self]. *)
Definition attr {S T} (get : S -> T) : M S T := fun s => (Ok (get s), s).

(** A numpy operation: it raises or yields, and touches no attribute. *)
Definition lift {S T} (r : result T) : M S T := fun s => (r, s).

(** [__call__]: the state is [self]. *)
Definition __call__ (x : pyarg) : M least_squares R :=
  let _x := coerce x in
  self_A <- attr A ;;
  if negb (nrows _x =? ncols self_A)%nat
  then raise (ShapeMismatch (shape self_A) (shape _x))
  else
    p <- lift (matmul self_A _x) ;;
    self_b <- attr b ;;
    d <- lift (msub p self_b) ;;
    ret (norm (entries d) ^ 2).

(** The dictionary [solve_minimum] returns. *)
Record lstsq_report : Type := LstsqReport {
  rep_x_star : matrix;      (* "x*": minimiser *)
  rep_r : list R;           (* "r": residuals, if appropriate *)
  rep_rk : nat;             (* "rk": rank of A *)
  rep_s : list R            (* "s": singular values of A *)
}.

Section solve_minimum.

(** [np.linalg.lstsq(., ., rcond=None)], the solver of the numeric library. *)
Variable lstsq : matrix -> matrix -> result (matrix * list R * nat * list R).

Definition solve_minimum : M least_squares lstsq_report :=
  self_A <- attr A ;;
  self_b <- attr b ;;
  _soln <- lift (lstsq self_A self_b) ;;
  let '(s0, s1, s2, s3) := _soln in
  ret {| rep_x_star := s0; rep_r := s1; rep_rk := s2; rep_s := s3 |}.

End solve_minimum.

(** The number of values an argument holds. *)
Definition count (x : pyarg) : nat :=
  match x with
  | Sequence vals => length vals
  | Array a => length (nd_data a)
  end.

(** The values of an argument, row by row. *)
Definition values (x : pyarg) : list R :=
  match x with
  | Sequence vals => vals
  | Array a => nd_data a
  end.

(** An array holds as many values as its shape says. *)
Definition wf_ndarray (a : ndarray) : Prop :=
  length (nd_data a) = fold_right Nat.mul 1%nat (nd_shape a).

Definition wf_arg (x : pyarg) : Prop :=
  match x with
  | Sequence _ => True
  | Array a => wf_ndarray a
  end.

(** The squared Euclidean norm of [A*xs - b] as the documentation writes it:
    the sum over the rows [i] of [(sum_j A[i][j]*xs[j] - b[i])^2]. *)
Definition residual_sq (m : matrix) (rhs : list R) (xs : list R) : R :=
  sumsq (map (fun i => dot (row m i) xs - nth i rhs 0) (seq 0 (nrows m))).

(** ** goldensection over binary64 numbers *)

(** The line search once more, with Python's floats and numpy's float64
    arrays as they are: binary64 numbers, every operation rounded to nearest.
    A decimal literal stands for the binary64 number nearest to it, as in
    Python. *)
Module Float64.

Local Open Scope float_scope.
Local Set Warnings "-inexact-float".

Definition vec : Type := list float.

Definition vadd (u v : vec) : vec := map2 PrimFloat.add u v.
Definition vsub (u v : vec) : vec := map2 PrimFloat.sub u v.
(** [u / v], element-wise: a zero divisor gives inf or nan. *)
Definition vdiv (u v : vec) : vec := map2 PrimFloat.div u v.
(** [c * v] *)
Definition smul (c : float) (v : vec) : vec := map (fun a => c * a) v.
(** [v * c] *)
Definition vmuls (v : vec) (c : float) : vec := map (fun a => a * c) v.
(** [v / c] *)
Definition vdivs (v : vec) (c : float) : vec := map (fun a => a / c) v.

(** The entries added up from the left, as numpy does for an array of
    fewer than eight entries. *)
Definition sum (v : vec) : float := fold_left PrimFloat.add v 0.

(** [np.linalg.norm]: [sqrt(h.dot(h))]. *)
Definition norm (v : vec) : float :=
  PrimFloat.sqrt (sum (map2 PrimFloat.mul v v)).

(** [np.average] *)
Definition average (v : vec) : float :=
  sum v / PrimFloat.of_uint63 (Uint63.of_Z (Z.of_nat (length v))).

Definition iphi : float := (PrimFloat.sqrt 5 - 1) / 2.   (* 1/phi *)
Definition iphi2 : float := (3 - PrimFloat.sqrt 5) / 2.  (* 1/phi^2 *)

Record counter : Type := Counter {
  nfev : nat;
  invoked : list vec
}.

Record ls_result : Type := LsResult {
  res_x : vec;
  res_t : float;
  res_nfev : nat
}.

Section goldensection.

Variable func : vec -> float.
Variables x dx : vec.
Variable precision : float.

Definition _f (p : vec) : M counter float :=
  fun st => (Ok (func p),
             {| nfev := S (nfev st); invoked := invoked st ++ [p] |}).

Definition known (o : option float) (p : vec) : M counter float :=
  match o with Some v => ret v | None => _f p end.

Fixpoint _gs (limit : nat) (x1 x4 : vec) (h x2 x3 : option vec)
    (fx2 fx3 : option float) {struct limit} : M counter vec :=
  match limit with
  | O => raise RecursionError
  | S limit' =>
      let h := or_else h (vsub x4 x1) in
      if norm h <=? precision then ret (vdivs (vadd x1 x4) 2)
      else
        let x2 := or_else x2 (vadd x1 (smul iphi2 h)) in
        let x3 := or_else x3 (vadd x1 (smul iphi h)) in
        fx2 <- known fx2 x2 ;;
        fx3 <- known fx3 x3 ;;
        if fx2 <? fx3
        then _gs limit' x1 x3 (Some (vmuls h iphi)) None (Some x2)
                 None (Some fx2)
        else _gs limit' x2 x4 (Some (vmuls h iphi)) (Some x3) None
                 (Some fx3) None
  end.

(** The point [x + t*dx]. *)
Definition ray (t : float) : vec := vadd x (smul t dx).

(** The multiplier [t] is a Python integer, a power of two up to [2^64]:
    turning it into a float for [t*dx] is exact, and so is doubling the
    float. *)
Fixpoint bracketing (n : nat) (t : float) : M counter float :=
  match n with
  | O => raise BracketingFailed
  | S n' =>
      a <- _f (ray t) ;;
      b <- _f x ;;
      if b <? a then ret t else bracketing n' (t * 2)
  end.

Definition read_nfev : M counter nat := fun st => (Ok (nfev st), st).

Definition step_of (xopt : vec) : float := average (vdiv (vsub xopt x) dx).

Definition goldensection (limit : nat) : result ls_result * counter :=
  (t <- bracketing 64 1 ;;
   xopt <- _gs limit x (ray t) None None None None None ;;
   n <- read_nfev ;;
   ret {| res_x := xopt; res_t := step_of xopt; res_nfev := n |})
    {| nfev := 0; invoked := [] |}.

End goldensection.

(** The objective [(p - 1e10)**2] on scalars. *)
Definition parabola_far (p : vec) : float :=
  let d := nth 0 p 0 - 1e10 in d * d.


End Float64.

(** ** Notions the statements are written with *)

(** [func] is unimodal along the ray [x + t*dx], [t >= 0], with its minimum
    at [tstar]: strictly decreasing up to [tstar], strictly increasing from
    [tstar] on. *)
Definition unimodal_on_ray (func : vec -> R) (x dx : vec) (tstar : R) : Prop :=
  0 <= tstar /\
  (forall s t, 0 <= s -> s < t -> t <= tstar ->
     func (ray x dx t) < func (ray x dx s)) /\
  (forall s t, tstar <= s -> s < t ->
     func (ray x dx s) < func (ray x dx t)).

(** The arguments of the call [_gs(x1, x4)]. *)
Definition entry (x1 x4 : vec) : frame :=
  Frame x1 x4 None None None None None.

(** The value of the local [h] of an activation after its first line. *)
Definition width (a : frame) : vec :=
  or_else (f_h a) (vsub (f_x4 a) (f_x1 a)).

(** The two interior points of an activation that does not return. *)
Definition probe2 (a : frame) : vec :=
  or_else (f_x2 a) (vadd (f_x1 a) (smul iphi2 (width a))).
Definition probe3 (a : frame) : vec :=
  or_else (f_x3 a) (vadd (f_x1 a) (smul iphi (width a))).

(** [gs_run func precision a st a' st']: the call of [_gs] with arguments [a]
    in state [st] reaches, through tail calls, the activation with arguments
    [a'] in state [st']. *)
Inductive gs_run (func : vec -> R) (precision : R)
  : frame -> counter -> frame -> counter -> Prop :=
| run_here : forall a st, gs_run func precision a st a st
| run_call : forall a st a1 st1 a2 st2,
    gs_run func precision a st a1 st1 ->
    activation func precision a1 st1 = (Ok (inr a2), st2) ->
    gs_run func precision a st a2 st2.

(** An activation entered by a tail call of [_gs] carries one interior point
    with its value and leaves the other one open. *)
Definition carries (a : frame) : Prop :=
  (exists p v, f_x3 a = Some p /\ f_fx3 a = Some v /\
               f_x2 a = None /\ f_fx2 a = None) \/
  (exists p v, f_x2 a = Some p /\ f_fx2 a = Some v /\
               f_x3 a = None /\ f_fx3 a = None).

(** The state in which [goldensection] starts. *)
Definition fresh : counter := {| nfev := 0; invoked := [] |}.

(** The state after the evaluations [l], in this order. *)
Definition after (st : counter) (l : list vec) : counter :=
  {| nfev := nfev st + length l; invoked := invoked st ++ l |}.

(** What an activation that does not return evaluates: the interior points it
    was not given a value for. *)
Definition new_points (a : frame) : list vec :=
  match f_fx2 a with Some _ => [] | None => [probe2 a] end ++
  match f_fx3 a with Some _ => [] | None => [probe3 a] end.

(** The values [fx2] and [fx3] an activation compares. *)
Definition value2 (func : vec -> R) (a : frame) : R :=
  or_else (f_fx2 a) (func (probe2 a)).
Definition value3 (func : vec -> R) (a : frame) : R :=
  or_else (f_fx3 a) (func (probe3 a)).

(** The arguments of the tail call of an activation that does not return. *)
Definition next (func : vec -> R) (a : frame) : frame :=
  if Rlt_dec (value2 func a) (value3 func a)
  then Frame (f_x1 a) (probe3 a) (Some (vmuls (width a) iphi))
             None (Some (probe2 a)) None (Some (value2 func a))
  else Frame (probe2 a) (f_x4 a) (Some (vmuls (width a) iphi))
             (Some (probe3 a)) None (Some (value3 func a)) None.

(** The points the first [k] bracketing iterations evaluate, in order,
    starting from the multiplier [t]: [x + t*dx] and then [x], each time. *)
Fixpoint probes (x dx : vec) (t : Z) (k : nat) : list vec :=
  match k with
  | O => []
  | S k' => ray x dx (IZR t) :: x :: probes x dx (t * 2) k'
  end.

(** What [goldensection] does with the outcome of its call of [_gs]. *)
Definition package (x dx : vec) (out : result vec * counter)
  : result ls_result * counter :=
  match out with
  | (Ok xopt, st) =>
      (Ok {| res_x := xopt; res_t := step_of x dx xopt; res_nfev := nfev st |},
       st)
  | (Raise e, st) => (Raise e, st)
  end.

(** [st'] is [st] after some more evaluations. *)
Definition extends (st st' : counter) : Prop :=
  exists l, st' = after st l.

(** In exact arithmetic the carried width and the carried interior point of
    an activation are the ones it would compute from its bracket. *)
Definition coherent (a : frame) : Prop :=
  length (f_x1 a) = length (f_x4 a) /\
  width a = vsub (f_x4 a) (f_x1 a) /\
  probe2 a = vadd (f_x1 a) (smul iphi2 (width a)) /\
  probe3 a = vadd (f_x1 a) (smul iphi (width a)).

(** The activation [a] works on the part [lo, lo + w] of the ray: its
    bracket, its width and its interior points lie on the ray at the
    parameters golden-section search prescribes, and the values it carries
    are those of [func] at its interior points. *)
Definition on_ray (func : vec -> R) (x dx : vec) (lo w : R) (a : frame)
  : Prop :=
  f_x1 a = ray x dx lo /\
  f_x4 a = ray x dx (lo + w) /\
  width a = smul w dx /\
  probe2 a = ray x dx (lo + iphi2 * w) /\
  probe3 a = ray x dx (lo + iphi * w) /\
  value2 func a = func (probe2 a) /\
  value3 func a = func (probe3 a).

(** The bracket of [a] is a part of the ray that holds [tstar]. *)
Definition brackets (func : vec -> R) (x dx : vec) (tstar : R) (a : frame)
  : Prop :=
  exists lo w, 0 <= lo /\ lo <= tstar <= lo + w /\ on_ray func x dx lo w a.

(** The arguments of the activation reached after [k] tail calls. *)
Fixpoint descend (func : vec -> R) (k : nat) (a : frame) : frame :=
  match k with
  | O => a
  | S k' => descend func k' (next func a)
  end.

(** The points evaluated, in order, by [k] activations in a row that do not
    return, the first having the arguments [a]. *)
Fixpoint trail (func : vec -> R) (k : nat) (a : frame) : list vec :=
  match k with
  | O => []
  | S k' => new_points a ++ trail func k' (next func a)
  end.

(** The evaluations of a call [_gs(x1, x4)] that returns after [n] tail
    calls: none when it returns at once, two in the first activation and one
    in each later one otherwise. *)
Definition gs_cost (n : nat) : nat :=
  match n with
  | O => O
  | S _ => S n
  end.

(** The point [p] lies on the ray at a parameter between 0 and [T]. *)
Definition on_segment (x dx : vec) (T : R) (p : vec) : Prop :=
  exists s, 0 <= s <= T /\ p = ray x dx s.

(** The activation [a] works on a part of the ray between 0 and [T]. *)
Definition within (func : vec -> R) (x dx : vec) (T : R) (a : frame) : Prop :=
  exists lo w, 0 <= lo /\ 0 <= w /\ lo + w <= T /\ on_ray func x dx lo w a.

(** The class as the notebook loads it the second time: [__call__] prints
    [_x.shape[0]] and [self.A.shape[1]] before the test.  The state is
    [self] and the lines printed so far. *)
Definition print {S} (line : nat * nat) : M (S * list (nat * nat)) unit :=
  fun s => (Ok tt, (fst s, snd s ++ [line])).

Definition __call___reloaded (x : pyarg)
  : M (least_squares * list (nat * nat)) R :=
  let _x := coerce x in
  self_A <- attr (fun s => A (fst s)) ;;
  _ <- print (nrows _x, ncols self_A) ;;
  if negb (nrows _x =? ncols self_A)%nat
  then raise (ShapeMismatch (shape self_A) (shape _x))
  else
    p <- lift (matmul self_A _x) ;;
    self_b <- attr (fun s => b (fst s)) ;;
    d <- lift (msub p self_b) ;;
    ret (norm (entries d) ^ 2).

(** The arguments [a] with the carried values passed through [g]. *)
Definition map_frame (g : R -> R) (a : frame) : frame :=
  Frame (f_x1 a) (f_x4 a) (f_h a) (f_x2 a) (f_x3 a)
        (option_map g (f_fx2 a)) (option_map g (f_fx3 a)).

(** ** The monad *)

Lemma bind_ok {S T U} (m : M S T) (k : T -> M S U) s v s' :
  m s = (Ok v, s') -> bind m k s = k v s'.
Proof. unfold bind; intros ->; reflexivity. Qed.

(** ** The golden-section constants *)

Lemma sqrt5_sq : sqrt 5 * sqrt 5 = 5.
Proof. apply sqrt_sqrt; lra. Qed.

Lemma sqrt5_bounds : 2 < sqrt 5 < 3.
Proof.
  pose proof sqrt5_sq as H.
  assert (0 <= sqrt 5) by apply sqrt_pos.
  split; nra.
Qed.

Lemma iphi_bounds : 0 < iphi < 1.
Proof. unfold iphi; pose proof sqrt5_bounds; lra. Qed.

Lemma iphi2_iphi : iphi2 = 1 - iphi.
Proof. unfold iphi, iphi2; lra. Qed.

Lemma iphi_sq : iphi * iphi = iphi2.
Proof. unfold iphi, iphi2; pose proof sqrt5_sq; nra. Qed.

Lemma iphi2_bounds : 0 < iphi2 < iphi.
Proof.
  rewrite <- iphi_sq. pose proof iphi_bounds. nra.
Qed.

(** ** Vectors *)

Lemma map2_length {T U V} (f : T -> U -> V) u v :
  length u = length v -> length (map2 f u v) = length u.
Proof.
  revert v; induction u as [|a u IH]; intros [|c v]; simpl; intros H;
    try discriminate; auto.
Qed.

Lemma vadd_length u v : length u = length v -> length (vadd u v) = length u.
Proof. apply map2_length. Qed.

Lemma vsub_length u v : length u = length v -> length (vsub u v) = length u.
Proof. apply map2_length. Qed.

Lemma smul_length c v : length (smul c v) = length v.
Proof. apply length_map. Qed.

Lemma vmuls_smul v c : vmuls v c = smul c v.
Proof. apply map_ext; intros; lra. Qed.

Lemma smul_smul c d v : smul c (smul d v) = smul (c * d) v.
Proof. unfold smul; rewrite map_map; apply map_ext; intros; lra. Qed.

Lemma sumsq_nonneg v : 0 <= sumsq v.
Proof. induction v as [|a v IH]; simpl; [lra | nra]. Qed.

Lemma sumsq_smul c v : sumsq (smul c v) = c * c * sumsq v.
Proof. induction v as [|a v IH]; simpl; [lra | rewrite IH; lra]. Qed.

Lemma norm_nonneg v : 0 <= norm v.
Proof. apply sqrt_pos. Qed.

Lemma norm_smul c v : norm (smul c v) = Rabs c * norm v.
Proof.
  unfold norm. rewrite sumsq_smul.
  rewrite sqrt_mult; [| nra | apply sumsq_nonneg].
  f_equal. apply sqrt_Rsqr_abs.
Qed.

Lemma norm_sq v : norm v ^ 2 = sumsq v.
Proof.
  unfold norm. simpl. rewrite Rmult_1_r. apply sqrt_sqrt, sumsq_nonneg.
Qed.

(** ** Points on the ray *)

Ltac vec_ind u d H :=
  revert d H; induction u as [|? ? IH]; intros [|? ?] Hl; simpl in *;
  try discriminate; [ reflexivity | f_equal; [ lra | apply IH; lia ] ].

Section ray_facts.

Variables x dx : vec.
Hypothesis Hlen : length x = length dx.

Lemma ray_length t : length (ray x dx t) = length x.
Proof. unfold ray. rewrite vadd_length; auto. now rewrite smul_length. Qed.

Lemma ray_zero : ray x dx 0 = x.
Proof. unfold ray, vadd, smul. clear -Hlen. vec_ind x dx Hlen. Qed.

Lemma ray_step s c w :
  vadd (ray x dx s) (smul c (smul w dx)) = ray x dx (s + c * w).
Proof. unfold ray, vadd, smul. clear -Hlen. vec_ind x dx Hlen. Qed.

Lemma ray_diff s t : vsub (ray x dx t) (ray x dx s) = smul (t - s) dx.
Proof. unfold ray, vsub, vadd, smul. clear -Hlen. vec_ind x dx Hlen. Qed.

Lemma ray_from_start t : vsub (ray x dx t) x = smul t dx.
Proof. unfold ray, vsub, vadd, smul. clear -Hlen. vec_ind x dx Hlen. Qed.

Lemma ray_mid s t :
  vdivs (vadd (ray x dx s) (ray x dx t)) 2 = ray x dx ((s + t) / 2).
Proof. unfold ray, vdivs, vadd, smul. clear -Hlen. vec_ind x dx Hlen. Qed.

Lemma ray_dist s t :
  norm (vsub (ray x dx t) (ray x dx s)) = Rabs (t - s) * norm dx.
Proof. rewrite ray_diff. apply norm_smul. Qed.

End ray_facts.

(** ** One activation of [_gs] *)

Lemma after_nil st : after st [] = st.
Proof.
  destruct st; unfold after; simpl. rewrite app_nil_r, Nat.add_0_r. reflexivity.
Qed.

Lemma after_app st l l' : after (after st l) l' = after st (l ++ l').
Proof.
  unfold after; simpl. rewrite length_app, app_assoc, Nat.add_assoc.
  reflexivity.
Qed.

Lemma _f_after func p st : _f func p st = (Ok (func p), after st [p]).
Proof.
  unfold _f, after; simpl. rewrite Nat.add_1_r. reflexivity.
Qed.

Lemma known_after func o p st :
  known func o p st =
  (Ok (or_else o (func p)),
   after st (match o with Some _ => [] | None => [p] end)).
Proof.
  destruct o; simpl.
  - unfold ret. now rewrite after_nil.
  - apply _f_after.
Qed.

Lemma activation_return func precision a st :
  norm (width a) <= precision ->
  activation func precision a st =
  (Ok (inl (vdivs (vadd (f_x1 a) (f_x4 a)) 2)), st).
Proof.
  intros H. unfold activation. fold (width a).
  destruct (Rle_dec (norm (width a)) precision); [reflexivity | contradiction].
Qed.

Lemma activation_call func precision a st :
  ~ norm (width a) <= precision ->
  activation func precision a st =
  (Ok (inr (next func a)), after st (new_points a)).
Proof.
  intros H. unfold activation. fold (width a).
  destruct (Rle_dec (norm (width a)) precision) as [Hle|_]; [contradiction|].
  fold (probe2 a) (probe3 a).
  erewrite bind_ok by apply known_after.
  erewrite bind_ok by apply known_after.
  rewrite after_app. fold (new_points a) (value2 func a) (value3 func a).
  unfold next.
  destruct (Rlt_dec (value2 func a) (value3 func a)); reflexivity.
Qed.

Lemma activation_cases func precision a st r st' :
  activation func precision a st = (r, st') ->
  (norm (width a) <= precision /\
   r = Ok (inl (vdivs (vadd (f_x1 a) (f_x4 a)) 2)) /\ st' = st) \/
  (~ norm (width a) <= precision /\
   r = Ok (inr (next func a)) /\ st' = after st (new_points a)).
Proof.
  intros H. destruct (Rle_dec (norm (width a)) precision) as [Hle|Hgt].
  - rewrite activation_return in H by assumption. inversion H; auto.
  - rewrite activation_call in H by assumption. inversion H; auto.
Qed.

(** [_gs] is its body followed by the tail call. *)
Lemma _gs_unfold func precision limit a st :
  _gs_frame func precision (S limit) a st =
  match activation func precision a st with
  | (Ok (inl v), st') => (Ok v, st')
  | (Ok (inr a'), st') => _gs_frame func precision limit a' st'
  | (Raise e, st') => (Raise e, st')
  end.
Proof.
  unfold _gs_frame, activation. simpl.
  destruct (Rle_dec _ precision); [reflexivity|].
  unfold bind.
  destruct (known func (f_fx2 a) _ st) as [[v2|e] s2]; [|reflexivity].
  destruct (known func (f_fx3 a) _ s2) as [[v3|e] s3]; [|reflexivity].
  destruct (Rlt_dec v2 v3); reflexivity.
Qed.

Lemma _gs_return func precision limit a st :
  norm (width a) <= precision ->
  _gs_frame func precision (S limit) a st =
  (Ok (vdivs (vadd (f_x1 a) (f_x4 a)) 2), st).
Proof.
  intros H. rewrite _gs_unfold, activation_return by assumption. reflexivity.
Qed.

Lemma _gs_call func precision limit a st :
  ~ norm (width a) <= precision ->
  _gs_frame func precision (S limit) a st =
  _gs_frame func precision limit (next func a) (after st (new_points a)).
Proof.
  intros H. rewrite _gs_unfold, activation_call by assumption. reflexivity.
Qed.

(** ** The tail call *)

Lemma next_width func a : width (next func a) = vmuls (width a) iphi.
Proof. unfold next. destruct (Rlt_dec _ _); reflexivity. Qed.

Lemma next_norm func a : norm (width (next func a)) = iphi * norm (width a).
Proof.
  rewrite next_width, vmuls_smul, norm_smul.
  rewrite Rabs_right; [reflexivity | pose proof iphi_bounds; lra].
Qed.

Lemma next_carries func a : carries (next func a).
Proof.
  unfold next, carries. destruct (Rlt_dec _ _); simpl; [left | right];
    eexists; eexists; repeat split; reflexivity.
Qed.

Lemma next_bracket func a :
  (f_x1 (next func a) = f_x1 a /\ f_x4 (next func a) = probe3 a) \/
  (f_x1 (next func a) = probe2 a /\ f_x4 (next func a) = f_x4 a).
Proof. unfold next. destruct (Rlt_dec _ _); simpl; auto. Qed.

Lemma carries_new_points a :
  carries a ->
  (exists p v, f_x3 a = Some p /\ f_fx3 a = Some v /\
               new_points a = [vadd (f_x1 a) (smul iphi2 (width a))]) \/
  (exists p v, f_x2 a = Some p /\ f_fx2 a = Some v /\
               new_points a = [vadd (f_x1 a) (smul iphi (width a))]).
Proof.
  unfold carries, new_points, probe2, probe3.
  intros [(p & v & H3 & Hf3 & H2 & Hf2) | (p & v & H2 & Hf2 & H3 & Hf3)];
    [left | right]; exists p, v; rewrite H3, Hf3, H2, Hf2; simpl; auto.
Qed.

Lemma vadd_vsub_cancel u w : length u = length w -> vsub (vadd u w) u = w.
Proof. unfold vsub, vadd. intros H. vec_ind u w H. Qed.

Lemma vsub_probe c u v :
  length u = length v ->
  vsub v (vadd u (smul c (vsub v u))) = smul (1 - c) (vsub v u).
Proof. unfold vsub, vadd, smul. intros H. vec_ind u v H. Qed.

Lemma vadd_smul_smul a c u w :
  length u = length w ->
  vadd (vadd u (smul a w)) (smul c w) = vadd u (smul (a + c) w).
Proof. unfold vadd, smul. intros H. vec_ind u w H. Qed.

Lemma coherent_entry x1 x4 : length x1 = length x4 -> coherent (entry x1 x4).
Proof. intros H. repeat split; assumption. Qed.

Lemma coherent_next func a : coherent a -> coherent (next func a).
Proof.
  intros (Hlen & Hw & H2 & H3).
  assert (Hlw : length (f_x1 a) = length (width a)).
  { rewrite Hw, vsub_length; auto. }
  unfold next.
  remember (width a) as w eqn:Ew.
  remember (probe2 a) as p2 eqn:E2.
  remember (probe3 a) as p3 eqn:E3.
  clear E2 E3. subst p2 p3.
  destruct (Rlt_dec _ _); unfold coherent, probe2, probe3; simpl;
    unfold width; simpl.
  - repeat split.
    + rewrite vadd_length; auto. now rewrite smul_length.
    + rewrite vadd_vsub_cancel by (now rewrite smul_length).
      apply vmuls_smul.
    + rewrite vmuls_smul, smul_smul, iphi_sq. reflexivity.
  - repeat split.
    + rewrite vadd_length by (now rewrite smul_length). assumption.
    + rewrite Hw at 2. rewrite vsub_probe by assumption.
      rewrite vmuls_smul, Hw. f_equal. rewrite iphi2_iphi. lra.
    + rewrite vmuls_smul, smul_smul, vadd_smul_smul by assumption.
      f_equal. f_equal. pose proof iphi_sq. rewrite iphi2_iphi in *. nra.
Qed.

Lemma gs_run_coherent func precision a st a' st' :
  gs_run func precision a st a' st' -> coherent a -> coherent a'.
Proof.
  induction 1 as [|a st a1 st1 a2 st2 _ IH Hact]; intros Hc; [assumption|].
  apply activation_cases in Hact.
  destruct Hact as [(_ & Hr & _) | (_ & Hr & _)]; inversion Hr; subst.
  apply coherent_next, IH, Hc.
Qed.

Lemma gs_run_front func precision a st a1 st1 a2 st2 :
  activation func precision a st = (Ok (inr a1), st1) ->
  gs_run func precision a1 st1 a2 st2 ->
  gs_run func precision a st a2 st2.
Proof.
  intros Hact Hrun. induction Hrun as [|b sb a2 s2 a3 s3 _ IH Hstep].
  - eapply run_call; [apply run_here | exact Hact].
  - eapply run_call; [apply IH; exact Hact | exact Hstep].
Qed.

(** A call of [_gs] that returns does so from an activation it reaches, whose
    width passes the test, and returns the midpoint of that bracket. *)
Lemma _gs_result func precision limit a st v st' :
  _gs_frame func precision limit a st = (Ok v, st') ->
  exists a', gs_run func precision a st a' st' /\
             norm (width a') <= precision /\
             v = vdivs (vadd (f_x1 a') (f_x4 a')) 2.
Proof.
  revert a st. induction limit as [|limit IH]; intros a st H.
  - discriminate H.
  - rewrite _gs_unfold in H.
    destruct (activation func precision a st) as [r s1] eqn:Hact.
    destruct (activation_cases _ _ _ _ _ _ Hact)
      as [(Hle & -> & ->) | (Hgt & -> & ->)].
    + inversion H; subst. exists a. split; [apply run_here | auto].
    + destruct (IH _ _ H) as (a' & Hrun & Hle & Hv).
      exists a'. split; [|auto]. eapply gs_run_front; eauto.
Qed.

Lemma _gs_raises func precision limit a st e st' :
  _gs_frame func precision limit a st = (Raise e, st') -> e = RecursionError.
Proof.
  revert a st. induction limit as [|limit IH]; intros a st H.
  - inversion H; reflexivity.
  - rewrite _gs_unfold in H.
    destruct (activation func precision a st) as [r s1] eqn:Hact.
    destruct (activation_cases _ _ _ _ _ _ Hact)
      as [(Hle & -> & ->) | (Hgt & -> & ->)].
    + discriminate H.
    + eapply IH; eauto.
Qed.

Lemma norm_single a : norm [a] = Rabs a.
Proof.
  unfold norm; simpl. rewrite Rplus_0_r. apply sqrt_Rsqr_abs.
Qed.

(** ** Width of the bracket *)

(** C3: at every activation of [_gs] reached from the call [_gs(x1, x4)] the
    carried width [h] equals [x4 - x1]; an activation that does not return
    makes its tail call on the bracket [x1, x3] or [x2, x4], and in both
    cases the width of the new bracket is [iphi = (sqrt 5 - 1)/2] times the
    width of the old one, as a vector and in norm. *)
Theorem gs_width_shrinks func precision x1 x4 st0 a st :
  length x1 = length x4 ->
  gs_run func precision (entry x1 x4) st0 a st ->
  width a = vsub (f_x4 a) (f_x1 a) /\
  forall a' st',
    activation func precision a st = (Ok (inr a'), st') ->
    let h := vsub (f_x4 a) (f_x1 a) in
    let x2 := vadd (f_x1 a) (smul iphi2 h) in
    let x3 := vadd (f_x1 a) (smul iphi h) in
    ((f_x1 a' = f_x1 a /\ f_x4 a' = x3) \/
     (f_x1 a' = x2 /\ f_x4 a' = f_x4 a)) /\
    f_h a' = Some (vsub (f_x4 a') (f_x1 a')) /\
    vsub (f_x4 a') (f_x1 a') = smul iphi h /\
    norm (vsub (f_x4 a') (f_x1 a')) = iphi * norm h.
Proof.
  intros Hlen Hrun.
  pose proof (gs_run_coherent _ _ _ _ _ _ Hrun (coherent_entry _ _ Hlen))
    as Hc.
  split; [apply Hc|].
  intros a' st' Hact h x2 x3.
  apply activation_cases in Hact.
  destruct Hact as [(_ & Hr & _) | (_ & Hr & _)]; inversion Hr; subst a'.
  pose proof (coherent_next func a Hc) as (_ & Hw' & _).
  destruct Hc as (_ & Hw & H2 & H3).
  assert (Hh : f_h (next func a) = Some (vmuls (width a) iphi)).
  { unfold next. destruct (Rlt_dec _ _); reflexivity. }
  rewrite <- Hw'. rewrite next_norm, next_width, Hh.
  subst h x2 x3. rewrite <- Hw, <- H2, <- H3.
  repeat split; auto using next_bracket, vmuls_smul.
Qed.

Lemma gs_width_shrinks_witness :
  let a' := next (fun p : vec => (3 * nth 0 p 0 - 1) ^ 2) (entry [0] [1]) in
  norm (vsub (f_x4 a') (f_x1 a')) = iphi * norm (vsub [1] [0]).
Proof.
  intros a'.
  apply (proj2 (gs_width_shrinks (fun p : vec => (3 * nth 0 p 0 - 1) ^ 2)
                  (1 / 4) [0] [1] fresh (entry [0] [1]) fresh
                  eq_refl (run_here _ _ _ _))
           a' (after fresh (new_points (entry [0] [1])))).
  apply activation_call.
  change (~ norm [1 - 0] <= 1 / 4). rewrite norm_single.
  replace (1 - 0) with 1 by lra. rewrite Rabs_R1. lra.
Defined.

(** ** Evaluations per step *)

(** C5: an activation of [_gs] entered by a tail call, when it does not
    return, evaluates [func] exactly once: at the interior point that was not
    handed over.  The interior point and the value handed over by the
    previous activation are the ones it goes on with. *)
Theorem gs_one_evaluation_per_step func precision a st a1 st1 a2 st2 :
  activation func precision a st = (Ok (inr a1), st1) ->
  activation func precision a1 st1 = (Ok (inr a2), st2) ->
  nfev st2 = S (nfev st1) /\
  ((f_x3 a1 = Some (probe2 a) /\ f_fx3 a1 = Some (value2 func a) /\
    probe3 a1 = probe2 a /\ value3 func a1 = value2 func a /\
    invoked st2 =
    invoked st1 ++ [vadd (f_x1 a1) (smul iphi2 (width a1))]) \/
   (f_x2 a1 = Some (probe3 a) /\ f_fx2 a1 = Some (value3 func a) /\
    probe2 a1 = probe3 a /\ value2 func a1 = value3 func a /\
    invoked st2 =
    invoked st1 ++ [vadd (f_x1 a1) (smul iphi (width a1))])).
Proof.
  intros H1 H2.
  apply activation_cases in H1.
  destruct H1 as [(_ & Hr & _) | (_ & Hr & _)]; inversion Hr; subst a1.
  clear Hr.
  apply activation_cases in H2.
  destruct H2 as [(_ & Hr & _) | (_ & Hr & Hst)]; inversion Hr; subst a2 st2.
  clear Hr.
  unfold after; simpl.
  unfold new_points, probe2, probe3, value2, value3, next.
  destruct (Rlt_dec _ _); simpl; (split; [lia|]); [left | right];
    repeat split; reflexivity.
Qed.

(** The call [_gs(x1, x4)] itself, when it does not return, evaluates both
    interior points. *)
Lemma entry_two_evaluations func precision x1 x4 st a' st' :
  activation func precision (entry x1 x4) st = (Ok (inr a'), st') ->
  nfev st' = S (S (nfev st)).
Proof.
  intros H. apply activation_cases in H.
  destruct H as [(_ & Hr & _) | (_ & _ & ->)]; [discriminate Hr|].
  simpl. lia.
Qed.

Lemma gs_one_evaluation_per_step_witness :
  let func := fun p : vec => (3 * nth 0 p 0 - 1) ^ 2 in
  let a := entry [0] [1] in
  let a1 := next func a in
  let st1 := after fresh (new_points a) in
  nfev (after st1 (new_points a1)) = S (nfev st1).
Proof.
  intros func a a1 st1.
  assert (Hw : norm (width a) = 1).
  { change (norm [1 - 0] = 1). rewrite norm_single.
    replace (1 - 0) with 1 by lra. apply Rabs_R1. }
  apply (gs_one_evaluation_per_step func (1 / 4) a fresh a1 st1
           (next func a1) (after st1 (new_points a1))).
  - apply activation_call. rewrite Hw. lra.
  - apply activation_call. unfold a1. rewrite next_norm, Hw.
    unfold iphi. pose proof sqrt5_bounds. lra.
Defined.

(** ** Counting *)

Lemma extends_refl st : extends st st.
Proof. exists []. symmetry. apply after_nil. Qed.

Lemma extends_after st l : extends st (after st l).
Proof. exists l. reflexivity. Qed.

Lemma extends_trans st1 st2 st3 :
  extends st1 st2 -> extends st2 st3 -> extends st1 st3.
Proof.
  intros [l ->] [l' ->]. exists (l ++ l'). apply after_app.
Qed.

Lemma extends_nfev st st' : extends st st' -> (nfev st <= nfev st')%nat.
Proof. intros [l ->]. simpl. lia. Qed.

Lemma _gs_extends func precision limit a st r st' :
  _gs_frame func precision limit a st = (r, st') -> extends st st'.
Proof.
  revert a st. induction limit as [|limit IH]; intros a st H.
  - inversion H. apply extends_refl.
  - rewrite _gs_unfold in H.
    destruct (activation func precision a st) as [r1 s1] eqn:Hact.
    destruct (activation_cases _ _ _ _ _ _ Hact)
      as [(Hle & -> & ->) | (Hgt & -> & ->)].
    + inversion H. apply extends_refl.
    + eapply extends_trans; [apply extends_after | eapply IH; eauto].
Qed.

Lemma probes_length x dx t k : length (probes x dx t k) = (2 * k)%nat.
Proof.
  revert t. induction k as [|k IH]; intros t; simpl; [reflexivity|].
  rewrite IH. lia.
Qed.

(** ** Bracketing *)

Lemma pow2_shift t i : (t * 2 * 2 ^ Z.of_nat i = t * 2 ^ Z.of_nat (S i))%Z.
Proof. rewrite Nat2Z.inj_succ, Z.pow_succ_r by lia. ring. Qed.

Lemma bracketing_step_up func x dx n t st :
  func (ray x dx (IZR t)) > func x ->
  bracketing func x dx (S n) t st = (Ok t, after st (probes x dx t 1)).
Proof.
  intros H. simpl. unfold bind. rewrite !_f_after, after_app. simpl.
  destruct (Rgt_dec _ _); [reflexivity | contradiction].
Qed.

Lemma bracketing_step_on func x dx n t st :
  func (ray x dx (IZR t)) <= func x ->
  bracketing func x dx (S n) t st =
  bracketing func x dx n (t * 2) (after st (probes x dx t 1)).
Proof.
  intros H. simpl. unfold bind. rewrite !_f_after, after_app. simpl.
  destruct (Rgt_dec _ _); [lra | reflexivity].
Qed.

Lemma bracketing_fails func x dx n t st :
  (forall i, (i < n)%nat ->
     func (ray x dx (IZR (t * 2 ^ Z.of_nat i))) <= func x) ->
  bracketing func x dx n t st =
  (Raise BracketingFailed, after st (probes x dx t n)).
Proof.
  revert t st. induction n as [|n IH]; intros t st H.
  - simpl. unfold raise. now rewrite after_nil.
  - rewrite bracketing_step_on.
    + rewrite IH.
      * rewrite after_app. reflexivity.
      * intros i Hi. rewrite pow2_shift. apply H. lia.
    + specialize (H 0%nat ltac:(lia)). simpl in H.
      now rewrite Z.mul_1_r in H.
Qed.

Lemma bracketing_succeeds func x dx n t st i :
  (i < n)%nat ->
  func (ray x dx (IZR (t * 2 ^ Z.of_nat i))) > func x ->
  (forall j, (j < i)%nat ->
     func (ray x dx (IZR (t * 2 ^ Z.of_nat j))) <= func x) ->
  bracketing func x dx n t st =
  (Ok (t * 2 ^ Z.of_nat i)%Z, after st (probes x dx t (S i))).
Proof.
  revert n t st. induction i as [|i IH]; intros n t st Hi Hgt Hle.
  - destruct n as [|n]; [lia|]. simpl Z.of_nat in *.
    rewrite Z.pow_0_r, Z.mul_1_r in *.
    now apply bracketing_step_up.
  - destruct n as [|n]; [lia|].
    rewrite bracketing_step_on.
    + rewrite (IH n (t * 2)%Z).
      * rewrite after_app, pow2_shift. reflexivity.
      * lia.
      * now rewrite pow2_shift.
      * intros j Hj. rewrite pow2_shift. apply Hle. lia.
    + specialize (Hle 0%nat ltac:(lia)). simpl in Hle.
      now rewrite Z.mul_1_r in Hle.
Qed.

(** Either no doubling exceeds, or there is a first one that does. *)
Lemma first_exceeding (P : nat -> Prop) (n : nat) :
  (forall i, {P i} + {~ P i}) ->
  (forall i, (i < n)%nat -> ~ P i) \/
  (exists i, (i < n)%nat /\ P i /\ forall j, (j < i)%nat -> ~ P j).
Proof.
  intros dec. induction n as [|n IH].
  - left. intros i Hi. lia.
  - destruct IH as [Hall | (i & Hi & HP & Hmin)].
    + destruct (dec n) as [Hn | Hn].
      * right. exists n. repeat split; auto.
      * left. intros i Hi. destruct (Nat.eq_dec i n); [subst; auto|].
        apply Hall. lia.
    + right. exists i. repeat split; auto.
Qed.

Lemma bracketing_cases func x dx n t st :
  (bracketing func x dx n t st =
     (Raise BracketingFailed, after st (probes x dx t n)) /\
   forall i, (i < n)%nat ->
     func (ray x dx (IZR (t * 2 ^ Z.of_nat i))) <= func x) \/
  (exists i, (i < n)%nat /\
     bracketing func x dx n t st =
       (Ok (t * 2 ^ Z.of_nat i)%Z, after st (probes x dx t (S i))) /\
     func (ray x dx (IZR (t * 2 ^ Z.of_nat i))) > func x /\
     forall j, (j < i)%nat ->
       func (ray x dx (IZR (t * 2 ^ Z.of_nat j))) <= func x).
Proof.
  destruct (first_exceeding
              (fun i => func (ray x dx (IZR (t * 2 ^ Z.of_nat i))) > func x) n)
    as [Hall | (i & Hi & Hgt & Hmin)].
  - intros i. apply Rgt_dec.
  - assert (H : forall i, (i < n)%nat ->
                  func (ray x dx (IZR (t * 2 ^ Z.of_nat i))) <= func x).
    { intros i Hi. apply Rnot_gt_le. auto. }
    left. split; [apply bracketing_fails|]; assumption.
  - assert (H : forall j, (j < i)%nat ->
                  func (ray x dx (IZR (t * 2 ^ Z.of_nat j))) <= func x).
    { intros j Hj. apply Rnot_gt_le. auto. }
    right. exists i. repeat split; auto. now apply bracketing_succeeds.
Qed.

(** ** The whole call *)

Lemma goldensection_unfold func x dx precision limit :
  goldensection func x dx precision limit =
  match bracketing func x dx 64 1 fresh with
  | (Ok t, st) =>
      package x dx
        (_gs func precision limit x (ray x dx (IZR t))
             None None None None None st)
  | (Raise e, st) => (Raise e, st)
  end.
Proof.
  unfold goldensection, goldensection_from, bind. fold fresh.
  destruct (bracketing func x dx 64 1 fresh) as [[t|e] st]; [|reflexivity].
  destruct (_gs func precision limit x _ None None None None None st)
    as [[v|e] st']; reflexivity.
Qed.

Lemma goldensection_fails func x dx precision limit :
  (forall i, (i < 64)%nat ->
     func (ray x dx (IZR (2 ^ Z.of_nat i))) <= func x) ->
  goldensection func x dx precision limit =
  (Raise BracketingFailed, after fresh (probes x dx 1 64)).
Proof.
  intros H. rewrite goldensection_unfold, bracketing_fails; [reflexivity|].
  intros i Hi. rewrite Z.mul_1_l. auto.
Qed.

Lemma goldensection_brackets func x dx precision limit i :
  (i < 64)%nat ->
  func (ray x dx (IZR (2 ^ Z.of_nat i))) > func x ->
  (forall j, (j < i)%nat ->
     func (ray x dx (IZR (2 ^ Z.of_nat j))) <= func x) ->
  goldensection func x dx precision limit =
  package x dx
    (_gs func precision limit x (ray x dx (IZR (2 ^ Z.of_nat i)))
         None None None None None (after fresh (probes x dx 1 (S i)))).
Proof.
  intros Hi Hgt Hle.
  rewrite goldensection_unfold, (bracketing_succeeds _ _ _ _ _ _ i).
  - rewrite Z.mul_1_l. reflexivity.
  - assumption.
  - now rewrite Z.mul_1_l.
  - intros j Hj. rewrite Z.mul_1_l. auto.
Qed.

Lemma package_raises x dx out e :
  fst (package x dx out) = Raise e -> fst out = Raise e.
Proof.
  destruct out as [[v|e'] st]; simpl; intros H; inversion H; reflexivity.
Qed.

Lemma package_snd x dx out : snd (package x dx out) = snd out.
Proof. destruct out as [[v|e'] st]; reflexivity. Qed.

(** C2: [goldensection] raises the bracketing error exactly when
    [func(x + t*dx) <= func(x)] for each of [t = 1, 2, 4, ..., 2^63]; the
    outcome is then the exception alone.  When some of these [t] gives
    [func(x + t*dx) > func(x)], the call is the call [_gs(x, x + t*dx)] for
    the smallest such [t], made after the bracketing evaluations, with its
    outcome put into the result dictionary. *)
Theorem bracketing_failure_iff func x dx precision limit :
  (fst (goldensection func x dx precision limit) = Raise BracketingFailed <->
   forall i, (i < 64)%nat ->
     func (ray x dx (IZR (2 ^ Z.of_nat i))) <= func x) /\
  (forall i, (i < 64)%nat ->
     func (ray x dx (IZR (2 ^ Z.of_nat i))) > func x ->
     (forall j, (j < i)%nat ->
        func (ray x dx (IZR (2 ^ Z.of_nat j))) <= func x) ->
     goldensection func x dx precision limit =
     package x dx
       (_gs func precision limit x (ray x dx (IZR (2 ^ Z.of_nat i)))
            None None None None None (after fresh (probes x dx 1 (S i))))).
Proof.
  split; [split|].
  - intros Hraise.
    destruct (bracketing_cases func x dx 64 1 fresh)
      as [[_ Hall] | (i & Hi & Hb & Hgt & Hle)].
    + intros i Hi. specialize (Hall i Hi). now rewrite Z.mul_1_l in Hall.
    + exfalso. rewrite goldensection_unfold, Hb in Hraise.
      apply package_raises in Hraise.
      destruct (_gs func precision limit x _ None None None None None _)
        as [r st'] eqn:Hgs.
      simpl in Hraise. subst r.
      apply (_gs_raises func precision limit (entry x _)) in Hgs.
      discriminate Hgs.
  - intros Hall. rewrite goldensection_fails by assumption. reflexivity.
  - intros i. apply goldensection_brackets.
Qed.

Lemma bracketing_failure_iff_witness :
  let func := fun p : vec => (3 * nth 0 p 0 - 1) ^ 2 in
  goldensection func [0] [1] 1 1 =
  package [0] [1]
    (_gs func 1 1 [0] (ray [0] [1] (IZR (2 ^ Z.of_nat 0)))
         None None None None None (after fresh (probes [0] [1] 1 1))).
Proof.
  intros func.
  apply (proj2 (bracketing_failure_iff func [0] [1] 1 1) 0%nat).
  - lia.
  - unfold func; simpl. lra.
  - intros j Hj. lia.
Defined.

Lemma bracketing_extends func x dx n t st :
  exists k, (k <= n)%nat /\
    snd (bracketing func x dx n t st) = after st (probes x dx t k) /\
    (fst (bracketing func x dx n t st) = Raise BracketingFailed -> k = n).
Proof.
  destruct (bracketing_cases func x dx n t st)
    as [[-> _] | (i & Hi & -> & _)].
  - exists n. auto.
  - exists (S i). repeat split; [lia | discriminate].
Qed.

(** C4: the count [goldensection] returns is the number of invocations of
    [func] made during the call: two for each bracketing iteration that ran
    ([func(x + t*dx)], then [func(x)] again) and then those of [_gs].  A call
    whose bracketing fails has made 128 invocations.  [nfev] is a natural
    number that [_f] alone changes, by one, so it never decreases. *)
Theorem evaluation_count_exact func x dx precision limit :
  let out := goldensection func x dx precision limit in
  nfev (snd out) = length (invoked (snd out)) /\
  (forall res, fst out = Ok res ->
     res_nfev res = length (invoked (snd out))) /\
  (exists k l, (k <= 64)%nat /\
     snd (bracketing func x dx 64 1 fresh) = after fresh (probes x dx 1 k) /\
     invoked (snd out) = probes x dx 1 k ++ l /\
     nfev (snd out) = (2 * k + length l)%nat) /\
  (fst out = Raise BracketingFailed ->
     nfev (snd out) = 128%nat /\ invoked (snd out) = probes x dx 1 64) /\
  (forall p st, nfev (snd (_f func p st)) = S (nfev st)) /\
  (forall n t st,
     (nfev st <= nfev (snd (bracketing func x dx n t st)))%nat) /\
  (forall lim a st,
     (nfev st <= nfev (snd (_gs_frame func precision lim a st)))%nat).
Proof.
  intros out.
  assert (Hout : exists k l, (k <= 64)%nat /\
            snd (bracketing func x dx 64 1 fresh)
              = after fresh (probes x dx 1 k) /\
            snd out = after (after fresh (probes x dx 1 k)) l /\
            (fst out = Raise BracketingFailed -> k = 64%nat /\ l = []) /\
            (forall res, fst out = Ok res -> res_nfev res = nfev (snd out))).
  { subst out. rewrite goldensection_unfold.
    destruct (bracketing_cases func x dx 64 1 fresh)
      as [[Hb _] | (i & Hi & Hb & _)]; rewrite Hb.
    - exists 64%nat, []. simpl. rewrite after_nil.
      split; [lia|]. split; [reflexivity|]. split; [reflexivity|].
      split; [auto | discriminate].
    - destruct (_gs func precision limit x _ None None None None None
                  (after fresh (probes x dx 1 (S i)))) as [r st'] eqn:Hgs.
      pose proof (_gs_extends func precision limit (entry x _) _ _ _ Hgs)
        as [l ->].
      exists (S i), l.
      split; [lia|]. split; [reflexivity|]. split; [apply package_snd|].
      split.
      + intros H. apply package_raises in H. simpl in H. subst r.
        apply (_gs_raises func precision limit (entry x _)) in Hgs.
        discriminate Hgs.
      + intros res H. destruct r; simpl in *; inversion H; reflexivity. }
  destruct Hout as (k & l & Hk & Hb & Hs & Hfail & Hres).
  assert (Hcount : nfev (snd out) = length (invoked (snd out))).
  { rewrite Hs. simpl. rewrite !length_app. reflexivity. }
  split; [exact Hcount|].
  split; [intros res H; rewrite <- Hcount; auto|].
  split.
  { exists k, l. rewrite Hs. simpl. rewrite probes_length. auto. }
  split.
  { intros H. destruct (Hfail H) as [-> ->]. rewrite Hs, after_nil.
    unfold after, fresh; cbn [nfev invoked app]. rewrite probes_length.
    split; reflexivity. }
  split; [reflexivity|].
  split.
  - intros n t st.
    destruct (bracketing_extends func x dx n t st) as (j & _ & -> & _).
    simpl. lia.
  - intros lim a st.
    destruct (_gs_frame func precision lim a st) as [r st'] eqn:Hgs.
    apply _gs_extends in Hgs. apply extends_nfev in Hgs. exact Hgs.
Qed.

Lemma evaluation_count_exact_witness :
  nfev (snd (goldensection (fun _ => 0) [0] [1] 1 1)) = 128%nat.
Proof.
  apply (evaluation_count_exact (fun _ => 0) [0] [1] 1 1).
  rewrite goldensection_fails; [reflexivity|].
  intros i Hi. lra.
Defined.

(** ** The bracket on the ray *)

Section on_the_ray.

Variable func : vec -> R.
Variables x dx : vec.
Hypothesis Hlen : length x = length dx.

Lemma on_ray_entry lo w :
  on_ray func x dx lo w (entry (ray x dx lo) (ray x dx (lo + w))).
Proof.
  assert (Hw : vsub (ray x dx (lo + w)) (ray x dx lo) = smul w dx).
  { rewrite ray_diff by assumption. f_equal. lra. }
  set (a := entry (ray x dx lo) (ray x dx (lo + w))).
  assert (Ha : width a = smul w dx) by exact Hw.
  assert (H2 : probe2 a = ray x dx (lo + iphi2 * w)).
  { unfold probe2; simpl. rewrite Ha. now apply ray_step. }
  assert (H3 : probe3 a = ray x dx (lo + iphi * w)).
  { unfold probe3; simpl. rewrite Ha. now apply ray_step. }
  unfold on_ray. repeat split; auto.
Qed.

Lemma on_ray_next lo w a :
  on_ray func x dx lo w a ->
  (value2 func a < value3 func a /\
   on_ray func x dx lo (iphi * w) (next func a)) \/
  (~ value2 func a < value3 func a /\
   on_ray func x dx (lo + iphi2 * w) (iphi * w) (next func a)).
Proof.
  intros (H1 & H4 & Hw & H2 & H3 & Hv2 & Hv3).
  unfold next.
  remember (width a) as W eqn:EW.
  remember (probe2 a) as P2 eqn:E2.
  remember (probe3 a) as P3 eqn:E3.
  remember (value2 func a) as V2 eqn:EV2.
  remember (value3 func a) as V3 eqn:EV3.
  clear EW E2 E3 EV2 EV3.
  pose proof iphi_sq as Hsq. pose proof iphi2_iphi as Hi2.
  destruct (Rlt_dec V2 V3) as [Hlt | Hge]; [left | right];
    (split; [assumption|]);
    unfold on_ray, value2, value3, probe2, probe3; simpl;
    unfold width; simpl; subst W P2 P3 V2 V3;
    rewrite vmuls_smul, smul_smul.
  - rewrite H1, !ray_step by assumption.
    replace (lo + iphi * (iphi * w)) with (lo + iphi2 * w)
      by (rewrite <- Hsq; ring).
    repeat split; reflexivity.
  - rewrite H4, !ray_step by assumption.
    assert (Hw2 : w * (iphi * iphi) = w * (1 - iphi))
      by (rewrite Hsq, Hi2; reflexivity).
    replace (lo + iphi2 * w + iphi * w) with (lo + w)
      by (rewrite Hi2; ring).
    replace (lo + iphi2 * w + iphi2 * (iphi * w)) with (lo + iphi * w)
      by (rewrite Hi2; lra).
    repeat split; reflexivity.
Qed.

Lemma gs_run_on_ray precision a st a' st' :
  gs_run func precision a st a' st' ->
  (exists lo w, on_ray func x dx lo w a) ->
  exists lo w, on_ray func x dx lo w a'.
Proof.
  induction 1 as [|a st a1 st1 a2 st2 _ IH Hact]; intros Ha; [assumption|].
  destruct (IH Ha) as (lo & w & Hray).
  apply activation_cases in Hact.
  destruct Hact as [(_ & Hr & _) | (_ & Hr & _)]; inversion Hr; subst.
  destruct (on_ray_next _ _ _ Hray) as [[_ Hn] | [_ Hn]]; eauto.
Qed.

Variable tstar : R.
Hypothesis Hmin : unimodal_on_ray func x dx tstar.

(** [tstar] is the minimiser of [func] on the ray. *)
Lemma unimodal_minimum t :
  0 <= t -> t <> tstar -> func (ray x dx tstar) < func (ray x dx t).
Proof.
  destruct Hmin as (H0 & Hdec & Hinc). intros Ht Hne.
  destruct (Rlt_dec t tstar).
  - apply Hdec; lra.
  - apply Hinc; lra.
Qed.

Lemma brackets_next a :
  ~ norm (width a) <= 0 ->
  brackets func x dx tstar a -> brackets func x dx tstar (next func a).
Proof.
  intros Hpos (lo & w & Hlo & Hin & Hray).
  destruct Hmin as (H0 & Hdec & Hinc).
  pose proof iphi_bounds. pose proof iphi2_bounds.
  assert (Hw : 0 < w).
  { destruct Hray as (_ & _ & Hwd & _).
    rewrite Hwd, norm_smul in Hpos.
    destruct (Rlt_dec 0 w); [assumption|].
    exfalso. apply Hpos. replace w with 0 by lra.
    rewrite Rabs_R0. lra. }
  pose proof Hray as (_ & _ & _ & H2 & H3 & Hv2 & Hv3).
  destruct (on_ray_next _ _ _ Hray) as [[Hlt Hn] | [Hge Hn]].
  - exists lo, (iphi * w).
    split; [lra|]. split; [split; [lra|] | exact Hn].
    destruct (Rle_dec tstar (lo + iphi * w)); [assumption|].
    exfalso. rewrite Hv2, Hv3, H2, H3 in Hlt.
    assert (func (ray x dx (lo + iphi * w))
            < func (ray x dx (lo + iphi2 * w))) by (apply Hdec; nra).
    lra.
  - exists (lo + iphi2 * w), (iphi * w).
    split; [nra|]. split; [split; [|rewrite iphi2_iphi; nra] | exact Hn].
    destruct (Rle_dec (lo + iphi2 * w) tstar); [assumption|].
    exfalso. apply Hge. rewrite Hv2, Hv3, H2, H3.
    apply Hinc; nra.
Qed.

Lemma gs_run_brackets precision a st a' st' :
  0 <= precision ->
  gs_run func precision a st a' st' ->
  brackets func x dx tstar a -> brackets func x dx tstar a'.
Proof.
  intros Hp. induction 1 as [|a st a1 st1 a2 st2 _ IH Hact]; intros Ha;
    [assumption|].
  apply activation_cases in Hact.
  destruct Hact as [(_ & Hr & _) | (Hgt & Hr & _)]; inversion Hr; subst.
  apply brackets_next; [lra | auto].
Qed.

(** The first multiplier that makes [func] exceed [func(x)] lies beyond the
    minimiser. *)
Lemma brackets_entry t :
  0 <= t ->
  func (ray x dx t) > func x ->
  brackets func x dx tstar (entry x (ray x dx t)).
Proof.
  intros Ht Hgt. destruct Hmin as (H0 & Hdec & Hinc).
  exists 0, t. split; [lra|]. split; [split; [lra|] |].
  - destruct (Rle_dec tstar (0 + t)); [assumption|]. exfalso.
    destruct (Req_dec t 0) as [-> | Hne].
    + rewrite ray_zero in Hgt by assumption. lra.
    + assert (func (ray x dx t) < func (ray x dx 0)) by (apply Hdec; lra).
      rewrite ray_zero in * by assumption. lra.
  - pose proof (on_ray_entry 0 t) as Hentry.
    rewrite ray_zero, Rplus_0_l in Hentry by assumption. exact Hentry.
Qed.

End on_the_ray.

(** ** Termination of [_gs] *)

Lemma gs_returns_within func precision n :
  forall a st limit,
    norm (width a) * iphi ^ n <= precision -> (n < limit)%nat ->
    exists v st', _gs_frame func precision limit a st = (Ok v, st').
Proof.
  induction n as [|n IH]; intros a st [|limit] H Hl; try lia.
  - simpl in H. rewrite _gs_return by lra. eauto.
  - destruct (Rle_dec (norm (width a)) precision) as [Hle | Hgt].
    + rewrite _gs_return by assumption. eauto.
    + rewrite _gs_call by assumption. apply IH; [|lia].
      rewrite next_norm. simpl in H. lra.
Qed.

(** For a positive precision a recursion depth exists from which on [_gs]
    returns. *)
Lemma gs_returns func precision a :
  0 < precision ->
  exists N, forall limit st, (N <= limit)%nat ->
    exists v st', _gs_frame func precision limit a st = (Ok v, st').
Proof.
  intros Hp. pose proof (norm_nonneg (width a)) as Hn.
  pose proof iphi_bounds as Hi.
  destruct (pow_lt_1_zero iphi) with (y := precision / (norm (width a) + 1))
    as [N HN].
  - rewrite Rabs_right; lra.
  - apply Rdiv_lt_0_compat; lra.
  - exists (S N). intros limit st Hl.
    apply gs_returns_within with (n := N); [|lia].
    specialize (HN N (Nat.le_refl N)).
    rewrite Rabs_right in HN by (apply Rle_ge, pow_le; lra).
    assert (Hq : precision / (norm (width a) + 1) * (norm (width a) + 1)
                 = precision) by (field; lra).
    assert (0 <= iphi ^ N) by (apply pow_le; lra).
    nra.
Qed.

Lemma goldensection_returns func x dx precision i :
  0 < precision -> (i < 64)%nat ->
  func (ray x dx (IZR (2 ^ Z.of_nat i))) > func x ->
  exists N, forall limit, (N <= limit)%nat ->
    exists res st, goldensection func x dx precision limit = (Ok res, st).
Proof.
  intros Hp Hi Hgt.
  destruct (bracketing_cases func x dx 64 1 fresh)
    as [[_ Hall] | (j & Hj & Hb & _)].
  - specialize (Hall i Hi). rewrite Z.mul_1_l in Hall. lra.
  - destruct (gs_returns func precision
                (entry x (ray x dx (IZR (1 * 2 ^ Z.of_nat j)))) Hp)
      as [N HN].
    exists N. intros limit Hl.
    rewrite goldensection_unfold, Hb.
    destruct (HN limit (after fresh (probes x dx 1 (S j))) Hl)
      as (v & st' & Hv).
    change (_gs func precision limit x ?p None None None None None)
      with (_gs_frame func precision limit (entry x p)).
    rewrite Hv. simpl. eauto.
Qed.

(** ** The point found *)

(** C1: in exact arithmetic, for [func] unimodal along the ray with its
    minimum at [tstar] (no other point of the ray has a value as small), a
    start and a direction of
    one dimension, and a positive precision: when [goldensection] returns,
    the point it returns is within [precision], in Euclidean norm, of the
    minimiser [x + tstar*dx]; the call [_gs(x, x + t*dx)] made after
    bracketing has reached an activation whose width [h = x4 - x1] passed the
    test [norm(h) <= precision], and the point returned is the midpoint of
    its bracket.  (A direction that is zero is not unimodal.) *)
Theorem goldensection_within_precision
    func x dx precision tstar limit res st :
  length x = length dx ->
  0 < precision ->
  unimodal_on_ray func x dx tstar ->
  goldensection func x dx precision limit = (Ok res, st) ->
  norm (vsub (res_x res) (ray x dx tstar)) <= precision /\
  (forall t, 0 <= t -> t <> tstar ->
     func (ray x dx tstar) < func (ray x dx t)) /\
  exists t st1 a,
    bracketing func x dx 64 1 fresh = (Ok t, st1) /\
    gs_run func precision (entry x (ray x dx (IZR t))) st1 a st /\
    width a = vsub (f_x4 a) (f_x1 a) /\
    norm (vsub (f_x4 a) (f_x1 a)) <= precision /\
    res_x res = vdivs (vadd (f_x1 a) (f_x4 a)) 2.
Proof.
  intros Hlen Hp Hmin Hrun.
  rewrite goldensection_unfold in Hrun.
  destruct (bracketing_cases func x dx 64 1 fresh)
    as [[Hb _] | (i & Hi & Hb & Hgt & _)]; rewrite Hb in Hrun;
    [discriminate Hrun|].
  set (t := (1 * 2 ^ Z.of_nat i)%Z) in *.
  destruct (_gs func precision limit x (ray x dx (IZR t))
              None None None None None (after fresh (probes x dx 1 (S i))))
    as [[v|e] st'] eqn:Hgs; simpl in Hrun; [|discriminate Hrun].
  inversion Hrun; subst res st'; clear Hrun. simpl.
  apply (_gs_result func precision limit (entry x _)) in Hgs.
  destruct Hgs as (a & Hgsr & Hle & Hv).
  assert (Ht : 0 <= IZR t).
  { apply IZR_le. unfold t. rewrite Z.mul_1_l. apply Z.pow_nonneg. lia. }
  pose proof (gs_run_brackets func x dx Hlen tstar Hmin precision _ _ _ _
                ltac:(lra) Hgsr (brackets_entry func x dx Hlen tstar Hmin _
                                    Ht Hgt))
    as (lo & w & Hlo & Hin & Hray).
  assert (Hc : coherent a).
  { apply (gs_run_coherent _ _ _ _ _ _ Hgsr), coherent_entry.
    now rewrite ray_length. }
  destruct Hc as (_ & Hw & _).
  split; [|split].
  - destruct Hray as (H1 & H4 & Hwd & _).
    rewrite Hv, H1, H4, ray_mid, ray_dist by assumption.
    rewrite Hwd, norm_smul in Hle.
    apply Rle_trans with (Rabs w * norm dx); [|assumption].
    apply Rmult_le_compat_r; [apply norm_nonneg|].
    unfold Rabs. destruct (Rcase_abs _), (Rcase_abs _); lra.
  - intros s. now apply unimodal_minimum.
  - exists t, (after fresh (probes x dx 1 (S i))), a.
    rewrite <- Hw. auto.
Qed.

Lemma goldensection_within_precision_witness :
  let func := fun p : vec => (3 * nth 0 p 0 - 1) ^ 2 in
  exists limit res st,
    goldensection func [0] [1] (1 / 2) limit = (Ok res, st) /\
    norm (vsub (res_x res) (ray [0] [1] (1 / 3))) <= 1 / 2.
Proof.
  intros func.
  destruct (goldensection_returns func [0] [1] (1 / 2) 0) as [N HN];
    [lra | lia | unfold func; simpl; lra |].
  destruct (HN N (Nat.le_refl N)) as (res & st & Hrun).
  exists N, res, st. split; [exact Hrun|].
  apply (goldensection_within_precision func [0] [1] (1 / 2) (1 / 3)
           N res st).
  - reflexivity.
  - lra.
  - unfold unimodal_on_ray, ray, func; simpl. split; [lra|].
    split; intros s t Hs Hst; [intros Ht|]; nra.
  - exact Hrun.
Defined.

(** ** The step size *)

Lemma vdiv_smul s dx :
  Forall (fun d => d <> 0) dx ->
  vdiv (smul s dx) dx = map (fun _ => Some s) dx.
Proof.
  unfold vdiv, smul.
  induction 1 as [|d dx Hd _ IH]; simpl; [reflexivity|].
  rewrite IH. f_equal.
  unfold fdiv. destruct (Req_dec_T d 0); [contradiction|].
  f_equal. field. assumption.
Qed.

Lemma all_finite_const s (l : list R) :
  all_finite (map (fun _ => Some s) l) = Some (map (fun _ => s) l).
Proof. induction l as [|a l IH]; simpl; [|rewrite IH]; reflexivity. Qed.

Lemma sum_const s (l : list R) :
  sum (map (fun _ => s) l) = INR (length l) * s.
Proof.
  induction l as [|a l IH]; [simpl; lra|].
  change (s + sum (map (fun _ => s) l) = INR (S (length l)) * s).
  rewrite IH, S_INR. lra.
Qed.

Lemma average_const s (l : list R) :
  l <> [] -> average (map (fun _ => Some s) l) = Some s.
Proof.
  intros Hl. destruct l as [|a l]; [contradiction|].
  unfold average. rewrite all_finite_const.
  pose proof (sum_const s (a :: l)) as Hs.
  pose proof (length_map (fun _ : R => s) (a :: l)) as Hm.
  cbn [map] in *. rewrite Hs, Hm. f_equal.
  assert (INR (length (a :: l)) <> 0).
  { apply not_0_INR. discriminate. }
  field. assumption.
Qed.

Lemma all_finite_none (l : list (option R)) : In None l -> all_finite l = None.
Proof.
  induction l as [|[a|] l IH]; simpl; intros H; try reflexivity.
  - contradiction.
  - destruct H as [H|H]; [discriminate|]. now rewrite IH.
Qed.

Lemma vdiv_by_zero u dx :
  length u = length dx -> In 0 dx -> In None (vdiv u dx).
Proof.
  revert dx. induction u as [|a u IH]; intros [|d dx] Hl Hin;
    simpl in *; try discriminate; try contradiction.
  destruct Hin as [-> | Hin].
  - left. unfold fdiv. destruct (Req_dec_T 0 0); [reflexivity | contradiction].
  - right. apply IH; [lia | assumption].
Qed.

(** What a call that returns has done: bracketing stopped at some
    multiplier, and the point found lies on the ray. *)
Lemma goldensection_on_ray func x dx precision limit res st :
  length x = length dx ->
  goldensection func x dx precision limit = (Ok res, st) ->
  exists i s,
    func (ray x dx (IZR (2 ^ Z.of_nat i))) > func x /\
    res_x res = ray x dx s /\
    res_t res = step_of x dx (res_x res).
Proof.
  intros Hlen Hrun.
  rewrite goldensection_unfold in Hrun.
  destruct (bracketing_cases func x dx 64 1 fresh)
    as [[Hb _] | (i & Hi & Hb & Hgt & _)]; rewrite Hb in Hrun;
    [discriminate Hrun|].
  rewrite Z.mul_1_l in *.
  destruct (_gs func precision limit x _ None None None None None _)
    as [[v|e] st'] eqn:Hgs; simpl in Hrun; [|discriminate Hrun].
  inversion Hrun; subst res st'; clear Hrun. simpl.
  apply (_gs_result func precision limit (entry x _)) in Hgs.
  destruct Hgs as (a & Hgsr & _ & Hv).
  destruct (gs_run_on_ray func x dx Hlen precision _ _ _ _ Hgsr)
    as (lo & w & H1 & H4 & _).
  { exists 0, (IZR (2 ^ Z.of_nat i)).
    pose proof (on_ray_entry func x dx Hlen 0 (IZR (2 ^ Z.of_nat i))) as He.
    rewrite ray_zero, Rplus_0_l in He by assumption. exact He. }
  exists i, ((lo + (lo + w)) / 2). repeat split; auto.
  rewrite Hv, H1, H4. now apply ray_mid.
Qed.

Lemma bracketed_nonempty func x dx t :
  length x = length dx -> func (ray x dx t) > func x -> dx <> [].
Proof.
  intros Hlen Hgt ->. destruct x; [|discriminate].
  unfold ray, vadd in Hgt; simpl in Hgt. lra.
Qed.


(** When the direction has a zero component, the step returned is not a
    number. *)
Lemma step_undefined func x dx precision limit res st :
  length x = length dx ->
  In 0 dx ->
  goldensection func x dx precision limit = (Ok res, st) ->
  res_t res = None.
Proof.
  intros Hlen Hz Hrun.
  destruct (goldensection_on_ray _ _ _ _ _ _ _ Hlen Hrun)
    as (i & s & Hgt & Hx & Ht).
  rewrite Ht, Hx. unfold step_of, average.
  rewrite all_finite_none; [reflexivity|].
  apply vdiv_by_zero; [|assumption].
  rewrite vsub_length; rewrite ray_length; auto.
Qed.

(** A run on a scalar parabola with its minimum at 1/3: bracketing stops at
    [t = 1] and the bracket [0, 1] already passes the test. *)
Lemma sample_run :
  exists res st,
    goldensection (fun p : vec => (3 * nth 0 p 0 - 1) ^ 2) [0] [1] 1 1
    = (Ok res, st).
Proof.
  rewrite (goldensection_brackets _ [0] [1] 1 1 0);
    [| lia | simpl; lra | intros j Hj; lia].
  change (_gs ?f 1 1 [0] ?p None None None None None)
    with (_gs_frame f 1 1 (entry [0] p)).
  rewrite _gs_return.
  - simpl. eauto.
  - change (norm [0 + 1 * 1 - 0] <= 1). rewrite norm_single.
    replace (0 + 1 * 1 - 0) with 1 by lra. rewrite Rabs_R1. lra.
Qed.


(** C9: the step recovery divides by every component of the direction with
    no guard.  For the objective [p[0]^2], the start [(0, 0)], the direction
    [(1, 0)] and the precision 1 the search returns the point [(1/2, 0)]
    after two evaluations, and the step it returns is the average of
    [(1/2)/1] and [0/0]: not a number. *)
Theorem step_recovery_divides_by_zero :
  exists st,
    goldensection (fun p : vec => nth 0 p 0 ^ 2) [0; 0] [1; 0] 1 1
    = (Ok {| res_x := [1 / 2; 0]; res_t := None; res_nfev := 2 |}, st).
Proof.
  assert (Hrun : exists res st,
             goldensection (fun p : vec => nth 0 p 0 ^ 2) [0; 0] [1; 0] 1 1
             = (Ok res, st) /\
             res_x res = [1 / 2; 0] /\ res_nfev res = 2%nat).
  { rewrite (goldensection_brackets _ [0; 0] [1; 0] 1 1 0);
      [| lia | simpl; lra | intros j Hj; lia].
    change (_gs ?f 1 1 [0; 0] ?p None None None None None)
      with (_gs_frame f 1 1 (entry [0; 0] p)).
    rewrite _gs_return.
    - eexists. eexists. split; [reflexivity|]. simpl.
      split; [|reflexivity]. f_equal; [lra | f_equal; lra].
    - change (norm [0 + 1 * 1 - 0; 0 + 1 * 0 - 0] <= 1).
      unfold norm, sumsq; simpl.
      replace ((0 + 1 * 1 - 0) * (0 + 1 * 1 - 0)
               + ((0 + 1 * 0 - 0) * (0 + 1 * 0 - 0) + 0)) with 1 by lra.
      rewrite sqrt_1. lra. }
  destruct Hrun as ([px pt pn] & st & Hrun & Hx & Hn).
  assert (Ht : pt = None).
  { apply (step_undefined (fun p : vec => nth 0 p 0 ^ 2)
             [0; 0] [1; 0] 1 1 _ st eq_refl) in Hrun;
      [exact Hrun | simpl; auto]. }
  simpl in Hx, Hn. subst px pt pn. exists st. exact Hrun.
Qed.

(** ** least_squares: coercion and the shape test *)

Lemma coerce_ncols x : ncols (coerce x) = 1%nat.
Proof.
  destruct x as [vals | a]; simpl; [reflexivity|].
  destruct (negb (length (nd_shape a) =? 2)%nat) eqn:E1; simpl;
    [reflexivity|].
  destruct (nth 1 (nd_shape a) 0%nat =? 1)%nat eqn:E2; simpl;
    [|reflexivity].
  now apply Nat.eqb_eq.
Qed.

Lemma coerce_entries x : entries (coerce x) = values x.
Proof.
  destruct x as [vals | a]; simpl; [reflexivity|].
  destruct (negb _ || negb _); reflexivity.
Qed.

Lemma coerce_nrows x : wf_arg x -> nrows (coerce x) = count x.
Proof.
  destruct x as [vals | [sh data]]; simpl; [reflexivity|].
  unfold wf_ndarray; simpl. intros Hwf.
  destruct (negb (length sh =? 2)%nat) eqn:E1; simpl; [reflexivity|].
  destruct (nth 1 sh 0%nat =? 1)%nat eqn:E2; simpl; [|reflexivity].
  apply negb_false_iff, Nat.eqb_eq in E1. apply Nat.eqb_eq in E2.
  destruct sh as [|r [|c [|? ?]]]; try discriminate.
  simpl in *. subst c. lia.
Qed.

Lemma coerce_column x : wf_arg x -> coerce x = reshape_column (values x).
Proof.
  intros Hwf. pose proof (coerce_nrows x Hwf) as Hr.
  pose proof (coerce_ncols x) as Hc. pose proof (coerce_entries x) as He.
  destruct (coerce x) as [r c e]; simpl in *. subst.
  unfold reshape_column. f_equal. destruct x; reflexivity.
Qed.

Lemma __call___mismatch x self :
  nrows (coerce x) <> ncols (A self) ->
  __call__ x self =
  (Raise (ShapeMismatch (shape (A self)) (shape (coerce x))), self).
Proof.
  intros H. unfold __call__, bind, attr; simpl.
  apply Nat.eqb_neq in H. rewrite H. reflexivity.
Qed.

Lemma __call___match x self :
  nrows (coerce x) = ncols (A self) ->
  __call__ x self =
  match matmul (A self) (coerce x) with
  | Ok p => match msub p (b self) with
            | Ok d => (Ok (norm (entries d) ^ 2), self)
            | Raise e => (Raise e, self)
            end
  | Raise e => (Raise e, self)
  end.
Proof.
  intros H. unfold __call__, bind, attr, lift; simpl.
  apply Nat.eqb_eq in H. rewrite H. simpl.
  destruct (matmul (A self) (coerce x)) as [p|e]; [|reflexivity].
  destruct (msub p (b self)) as [d|e]; reflexivity.
Qed.

Lemma matmul_raises l r e :
  matmul l r = Raise e -> e = MatmulError (shape l) (shape r).
Proof.
  unfold matmul. destruct (ncols l =? nrows r)%nat; intros H; inversion H.
  reflexivity.
Qed.

Lemma msub_raises l r e :
  msub l r = Raise e -> e = BroadcastError (shape l) (shape r).
Proof.
  unfold msub.
  destruct (broadcast_dim (nrows l) (nrows r)),
           (broadcast_dim (ncols l) (ncols r));
    intros H; inversion H; reflexivity.
Qed.

(** C7: [__call__] raises the shape-mismatch error exactly when the column
    vector obtained by coercing [x] has a number of rows other than the
    number of columns of [A]; the error carries the shape of [A] and the
    shape of the coerced [x], and the call yields the exception alone. *)
Theorem shape_mismatch_iff self x :
  ((exists sa sx, fst (__call__ x self) = Raise (ShapeMismatch sa sx)) <->
   nrows (coerce x) <> ncols (A self)) /\
  (forall sa sx,
     fst (__call__ x self) = Raise (ShapeMismatch sa sx) ->
     sa = shape (A self) /\ sx = shape (coerce x)) /\
  (nrows (coerce x) <> ncols (A self) ->
   __call__ x self =
   (Raise (ShapeMismatch (shape (A self)) (shape (coerce x))), self)).
Proof.
  assert (Hcases :
    forall sa sx, fst (__call__ x self) = Raise (ShapeMismatch sa sx) ->
      nrows (coerce x) <> ncols (A self)).
  { intros sa sx H Heq. rewrite __call___match in H by assumption.
    destruct (matmul (A self) (coerce x)) as [p|e] eqn:Hm.
    - destruct (msub p (b self)) as [d|e] eqn:Hs; simpl in H;
        [discriminate H|].
      apply msub_raises in Hs. subst e. inversion H.
    - simpl in H. apply matmul_raises in Hm. subst e. inversion H. }
  split; [split|split].
  - intros (sa & sx & H). eapply Hcases; eauto.
  - intros H. rewrite __call___mismatch by assumption. simpl. eauto.
  - intros sa sx H. pose proof (Hcases _ _ H) as Hne.
    rewrite __call___mismatch in H by assumption. simpl in H.
    inversion H. auto.
  - apply __call___mismatch.
Qed.

Lemma shape_mismatch_iff_witness :
  let self := __init__ (Matrix 1 2 [1; 2]) (Matrix 1 1 [0]) in
  __call__ (Sequence [1; 2; 3]) self =
  (Raise (ShapeMismatch (1%nat, 2%nat) (3%nat, 1%nat)), self).
Proof.
  intros self.
  apply (proj2 (proj2 (shape_mismatch_iff self (Sequence [1; 2; 3])))).
  simpl. lia.
Defined.

(** ** least_squares: the value *)

Lemma flat_map_single {T} (f : nat -> nat -> T) (l : list nat) :
  flat_map (fun i => map (fun j => f i j) (seq 0 1)) l
  = map (fun i => f i 0%nat) l.
Proof.
  induction l as [|i l IH]; [reflexivity|].
  cbn [flat_map]. rewrite IH. reflexivity.
Qed.

Lemma map_nth_seq (l : list R) :
  map (fun i => nth i l 0) (seq 0 (length l)) = l.
Proof.
  induction l as [|a l IH]; simpl; [reflexivity|].
  f_equal. rewrite <- seq_shift, map_map. exact IH.
Qed.

Lemma nth_map_seq (f : nat -> R) k i :
  (i < k)%nat -> nth i (map f (seq 0 k)) 0 = f i.
Proof.
  intros Hi.
  rewrite (nth_indep _ 0 (f 0%nat)) by (now rewrite length_map, length_seq).
  rewrite map_nth, seq_nth by assumption. reflexivity.
Qed.

Lemma col_reshape_column vals : col (reshape_column vals) 0 = vals.
Proof.
  unfold col, reshape_column; simpl.
  rewrite <- (map_nth_seq vals) at 2.
  apply map_ext. intros i. now rewrite Nat.mul_1_r, Nat.add_0_r.
Qed.

Lemma matmul_column m vals :
  length vals = ncols m ->
  matmul m (reshape_column vals)
  = Ok {| nrows := nrows m; ncols := 1;
          entries := map (fun i => dot (row m i) vals) (seq 0 (nrows m)) |}.
Proof.
  intros H. unfold matmul.
  replace (ncols m =? nrows (reshape_column vals))%nat with true
    by (symmetry; apply Nat.eqb_eq; simpl; lia).
  f_equal. f_equal.
  change (ncols (reshape_column vals)) with 1%nat.
  rewrite (flat_map_single
             (fun i j => dot (row m i) (col (reshape_column vals) j))).
  now rewrite col_reshape_column.
Qed.

Lemma bcast_at_column k e i :
  (i < k)%nat -> bcast_at (Matrix k 1 e) i 0 = nth i e 0.
Proof.
  intros Hi. unfold bcast_at; simpl.
  destruct (k =? 1)%nat eqn:Ek.
  - apply Nat.eqb_eq in Ek. f_equal. lia.
  - f_equal. lia.
Qed.

Lemma msub_columns k e1 e2 :
  msub (Matrix k 1 e1) (Matrix k 1 e2)
  = Ok (Matrix k 1 (map (fun i => nth i e1 0 - nth i e2 0) (seq 0 k))).
Proof.
  unfold msub, broadcast_dim; simpl. rewrite Nat.eqb_refl.
  f_equal. f_equal.
  rewrite (flat_map_single
             (fun i j => bcast_at (Matrix k 1 e1) i j
                         - bcast_at (Matrix k 1 e2) i j)).
  apply map_ext_in. intros i Hi. apply in_seq in Hi.
  rewrite !bcast_at_column by lia. reflexivity.
Qed.

(** C8: for an instance whose [b] is a column with as many rows as [A], and
    a query with as many values as [A] has columns, [__call__] returns the
    squared Euclidean norm of [A*xs - b], [xs] being the values of the query
    arranged as a column; two queries with the same values, whatever their
    form, get the same answer; and the attributes of the instance are as
    they were. *)
Theorem evaluate_residual self x :
  wf_arg x ->
  count x = ncols (A self) ->
  ncols (b self) = 1%nat ->
  nrows (b self) = nrows (A self) ->
  __call__ x self
  = (Ok (residual_sq (A self) (entries (b self)) (values x)), self) /\
  (forall x', wf_arg x' -> values x' = values x ->
     __call__ x' self = __call__ x self) /\
  __call__ (Sequence (values x)) self
  = __call__ (Array (NdArray [length (values x); 1%nat] (values x))) self.
Proof.
  intros Hwf Hcount Hbc Hbr.
  assert (Hsame : forall x1 x2, wf_arg x1 -> wf_arg x2 ->
            values x1 = values x2 -> __call__ x1 self = __call__ x2 self).
  { intros x1 x2 H1 H2 Hv. unfold __call__.
    rewrite (coerce_column x1), (coerce_column x2), Hv by assumption.
    reflexivity. }
  split; [|split].
  - assert (Hlen : length (values x) = ncols (A self)).
    { rewrite <- Hcount. destruct x; reflexivity. }
    rewrite __call___match
      by (rewrite coerce_nrows by assumption; exact Hcount).
    rewrite coerce_column, matmul_column by assumption.
    destruct (b self) as [bk bc be] eqn:Eb. simpl in Hbc, Hbr. subst bk bc.
    rewrite msub_columns. simpl entries.
    rewrite norm_sq. unfold residual_sq. do 3 f_equal.
    apply map_ext_in. intros i Hi. apply in_seq in Hi.
    rewrite nth_map_seq by lia. reflexivity.
  - intros x' Hwf' Hv. now apply Hsame.
  - apply Hsame; simpl; auto. unfold wf_ndarray; simpl. lia.
Qed.

Lemma evaluate_residual_witness :
  let self := __init__ (Matrix 2 2 [1; 0; 0; 1]) (Matrix 2 1 [1; 1]) in
  __call__ (Sequence [1; 1]) self
  = (Ok (residual_sq (A self) (entries (b self)) [1; 1]), self).
Proof.
  intros self.
  apply (evaluate_residual self (Sequence [1; 1])); reflexivity || exact I.
Defined.

(** C10: [__init__] checks nothing: for every pair of arrays it yields the
    instance whose attributes are the two arrays as given.  When the row
    counts of the two differ (and neither is one), the mismatch shows in
    [__call__], which raises numpy's broadcasting error and leaves the
    instance as it was built; and whatever the solver objects to shows in
    [solve_minimum]. *)
Theorem init_no_validation mA mb :
  A (__init__ mA mb) = mA /\
  b (__init__ mA mb) = mb /\
  (forall x,
     nrows (coerce x) = ncols mA ->
     nrows mb <> nrows mA -> nrows mA <> 1%nat -> nrows mb <> 1%nat ->
     __call__ x (__init__ mA mb)
     = (Raise (BroadcastError (nrows mA, 1%nat) (shape mb)),
        __init__ mA mb)) /\
  (forall lstsq e,
     lstsq mA mb = Raise e ->
     solve_minimum lstsq (__init__ mA mb) = (Raise e, __init__ mA mb)).
Proof.
  split; [reflexivity|]. split; [reflexivity|].
  split; [|intros lstsq e H; unfold solve_minimum, bind, attr, lift; simpl;
           rewrite H; reflexivity].
  intros x Hx Hne HA Hb.
  rewrite __call___match by exact Hx. simpl A. simpl b.
  unfold matmul. rewrite <- Hx, Nat.eqb_refl.
  unfold msub, broadcast_dim; simpl nrows; simpl ncols.
  apply Nat.eqb_neq in HA, Hb.
  assert (Hne' : (nrows mA =? nrows mb)%nat = false)
    by (apply Nat.eqb_neq; auto).
  rewrite Hne', HA, Hb, coerce_ncols. reflexivity.
Qed.

Lemma init_no_validation_witness :
  let mA := Matrix 2 1 [1; 1] in
  let mb := Matrix 3 1 [0; 0; 0] in
  __call__ (Sequence [1]) (__init__ mA mb)
  = (Raise (BroadcastError (2%nat, 1%nat) (3%nat, 1%nat)), __init__ mA mb).
Proof.
  intros mA mb.
  apply (proj1 (proj2 (proj2 (init_no_validation mA mb))) (Sequence [1]));
    simpl; lia.
Defined.

(** ** A run with two tail calls *)

(** On the bracket [0, 1] with precision 1/2 the widths are 1, [iphi] and
    [iphi^2]: [_gs] returns from its third activation, after three
    evaluations. *)
Example three_evaluations (func : vec -> R) :
  exists v st,
    _gs func (1 / 2) 3 [0] [1] None None None None None fresh = (Ok v, st) /\
    nfev st = 3%nat.
Proof.
  set (a := entry [0] [1]).
  assert (Hw : norm (width a) = 1).
  { change (norm [1 - 0] = 1). rewrite norm_single.
    replace (1 - 0) with 1 by lra. apply Rabs_R1. }
  pose proof sqrt5_bounds as Hs.
  change (exists v st, _gs_frame func (1 / 2) 3 a fresh = (Ok v, st) /\
                       nfev st = 3%nat).
  rewrite _gs_call by (rewrite Hw; lra).
  rewrite _gs_call by (rewrite next_norm, Hw; unfold iphi; lra).
  rewrite _gs_return.
  - eexists. eexists. split; [reflexivity|].
    destruct (carries_new_points _ (next_carries func a))
      as [(p & v & _ & _ & ->) | (p & v & _ & _ & ->)]; reflexivity.
  - rewrite !next_norm, Hw. pose proof sqrt5_sq. unfold iphi. nra.
Qed.

(** ** How long [_gs] runs *)

Lemma descend_norm func k a :
  norm (width (descend func k a)) = iphi ^ k * norm (width a).
Proof.
  revert a. induction k as [|k IH]; intros a; simpl; [lra|].
  rewrite IH, next_norm. lra.
Qed.

Lemma descend_carries func k a :
  carries (descend func (S k) a).
Proof.
  revert a. induction k as [|k IH]; intros a; [apply next_carries|].
  apply (IH (next func a)).
Qed.

Lemma trail_carries_length func k a :
  carries a -> length (trail func k a) = k.
Proof.
  revert a. induction k as [|k IH]; intros a Hc; simpl; [reflexivity|].
  rewrite length_app, IH by apply next_carries.
  destruct (carries_new_points a Hc)
    as [(p & v & _ & _ & ->) | (p & v & _ & _ & ->)]; reflexivity.
Qed.

Lemma trail_entry_length func n x1 x4 :
  length (trail func n (entry x1 x4)) = gs_cost n.
Proof.
  destruct n as [|n]; [reflexivity|].
  simpl. rewrite trail_carries_length by apply next_carries. reflexivity.
Qed.

(** [_gs] returns from the first activation whose width passes the test, if
    the recursion depth reaches that far. *)
Lemma gs_exact func precision n :
  forall a st limit,
    (forall m, (m < n)%nat -> ~ norm (width a) * iphi ^ m <= precision) ->
    norm (width a) * iphi ^ n <= precision ->
    (n < limit)%nat ->
    _gs_frame func precision limit a st =
    (Ok (vdivs (vadd (f_x1 (descend func n a)) (f_x4 (descend func n a))) 2),
     after st (trail func n a)).
Proof.
  induction n as [|n IH]; intros a st [|limit] Hnot Hle Hl; try lia.
  - simpl in Hle. rewrite _gs_return by lra. simpl. now rewrite after_nil.
  - assert (H0 : ~ norm (width a) <= precision).
    { specialize (Hnot 0%nat ltac:(lia)). simpl in Hnot. lra. }
    rewrite _gs_call by assumption.
    rewrite IH; [simpl; now rewrite after_app | | | lia].
    + intros m Hm. rewrite next_norm.
      specialize (Hnot (S m) ltac:(lia)). simpl in Hnot. lra.
    + rewrite next_norm. simpl in Hle. lra.
Qed.

(** [_gs] raises [RecursionError] when no activation within the recursion
    depth passes the test. *)
Lemma gs_exhausts func precision limit :
  forall a st,
    (forall m, (m < limit)%nat -> ~ norm (width a) * iphi ^ m <= precision) ->
    _gs_frame func precision limit a st =
    (Raise RecursionError, after st (trail func limit a)).
Proof.
  induction limit as [|limit IH]; intros a st Hnot.
  - simpl. unfold _gs_frame, raise; simpl. now rewrite after_nil.
  - assert (H0 : ~ norm (width a) <= precision).
    { specialize (Hnot 0%nat ltac:(lia)). simpl in Hnot. lra. }
    rewrite _gs_call by assumption.
    rewrite IH; [simpl; now rewrite after_app|].
    intros m Hm. rewrite next_norm.
    specialize (Hnot (S m) ltac:(lia)). simpl in Hnot. lra.
Qed.

(** The activations a call of [_gs] goes through while no width passes the
    test. *)
Lemma descend_run func precision k :
  forall a st,
    (forall m, (m < k)%nat -> ~ norm (width a) * iphi ^ m <= precision) ->
    gs_run func precision a st (descend func k a) (after st (trail func k a)).
Proof.
  induction k as [|k IH]; intros a st Hnot.
  - simpl. rewrite after_nil. apply run_here.
  - assert (H0 : ~ norm (width a) <= precision).
    { specialize (Hnot 0%nat ltac:(lia)). simpl in Hnot. lra. }
    simpl. rewrite <- after_app.
    eapply gs_run_front; [apply activation_call; exact H0|].
    apply IH. intros m Hm. rewrite next_norm.
    specialize (Hnot (S m) ltac:(lia)). simpl in Hnot. lra.
Qed.

(** X1: in exact arithmetic, let bracketing stop at [t = 2^i] and let [n] be
    the least number with [norm(t*dx) * iphi^n <= precision] (the width
    being [x + t*dx - x]).  With a recursion depth above [n] the search
    returns, having made [2*(i+1)] evaluations for the bracketing and, for
    the narrowing, none if [n = 0] and [n + 1] otherwise; the call
    [_gs(x, x + t*dx)] has then reached, after [n] tail calls, the activation
    whose bracket it returns the midpoint of, and the width of that
    activation has [iphi^n] times the norm of the first one.  With a
    recursion depth of [n] or less it raises [RecursionError]. *)
Theorem goldensection_cost func x dx precision limit i n :
  (i < 64)%nat ->
  func (ray x dx (IZR (2 ^ Z.of_nat i))) > func x ->
  (forall j, (j < i)%nat ->
     func (ray x dx (IZR (2 ^ Z.of_nat j))) <= func x) ->
  let a0 := entry x (ray x dx (IZR (2 ^ Z.of_nat i))) in
  let h0 := vsub (ray x dx (IZR (2 ^ Z.of_nat i))) x in
  (forall m, (m < n)%nat -> ~ norm h0 * iphi ^ m <= precision) ->
  norm h0 * iphi ^ n <= precision ->
  ((n < limit)%nat ->
   exists res st,
     goldensection func x dx precision limit = (Ok res, st) /\
     res_nfev res = (2 * S i + gs_cost n)%nat /\
     length (invoked st) = (2 * S i + gs_cost n)%nat /\
     gs_run func precision a0 (after fresh (probes x dx 1 (S i)))
            (descend func n a0) st /\
     res_x res = vdivs (vadd (f_x1 (descend func n a0))
                             (f_x4 (descend func n a0))) 2 /\
     norm (width (descend func n a0)) = iphi ^ n * norm h0 /\
     norm (width (descend func n a0)) <= precision) /\
  ((limit <= n)%nat ->
   fst (goldensection func x dx precision limit) = Raise RecursionError).
Proof.
  intros Hi Hgt Hle a0 h0 Hnot Hn.
  assert (Hw : width a0 = h0) by reflexivity.
  rewrite (goldensection_brackets func x dx precision limit i) by assumption.
  change (_gs func precision limit x ?p None None None None None)
    with (_gs_frame func precision limit (entry x p)). fold a0.
  split.
  - intros Hl. rewrite (gs_exact func precision n) by (rewrite ?Hw; auto).
    eexists. eexists. split; [reflexivity|].
    assert (Hlen : length (probes x dx 1 (S i) ++ trail func n a0)
                   = (2 * S i + gs_cost n)%nat).
    { rewrite length_app, probes_length. unfold a0.
      now rewrite trail_entry_length. }
    cbn [res_nfev res_x after nfev invoked fresh app].
    split; [rewrite length_app in Hlen; lia|].
    split; [exact Hlen|].
    split.
    { pose proof (descend_run func precision n a0
                    (after fresh (probes x dx 1 (S i)))) as Hrun.
      rewrite Hw in Hrun. apply Hrun. exact Hnot. }
    split; [reflexivity|].
    rewrite descend_norm, Hw. split; [reflexivity | lra].
  - intros Hl. rewrite gs_exhausts; [reflexivity|].
    intros m Hm. rewrite Hw. apply Hnot. lia.
Qed.

Lemma goldensection_cost_witness :
  exists res st,
    goldensection (fun p : vec => (3 * nth 0 p 0 - 1) ^ 2) [0] [1] (1 / 2) 3
    = (Ok res, st) /\
    res_nfev res = 5%nat.
Proof.
  assert (Hh : norm (vsub (ray [0] [1] (IZR (2 ^ Z.of_nat 0))) [0]) = 1).
  { change (norm [0 + 1 * 1 - 0] = 1). rewrite norm_single.
    replace (0 + 1 * 1 - 0) with 1 by lra. apply Rabs_R1. }
  pose proof sqrt5_bounds as Hs. pose proof sqrt5_sq as Hq.
  destruct (proj1 (goldensection_cost
                     (fun p : vec => (3 * nth 0 p 0 - 1) ^ 2)
                     [0] [1] (1 / 2) 3 0 2
                     ltac:(lia)
                     ltac:(simpl; lra)
                     ltac:(intros j Hj; lia)
                     ltac:(intros m Hm; rewrite Hh;
                           destruct m as [|[|m]]; [simpl; lra
                           | unfold iphi; simpl; lra | lia])
                     ltac:(rewrite Hh; unfold iphi; simpl; nra))
              ltac:(lia))
    as (res & st & Hrun & Hn & _).
  exists res, st. split; [exact Hrun | exact Hn].
Defined.

(** X2: with a negative precision no width passes the test, so the search
    never returns a result: it raises the bracketing error or, once
    bracketing has succeeded, [RecursionError], whatever the recursion
    depth. *)
Theorem negative_precision_never_returns func x dx precision limit :
  precision < 0 ->
  fst (goldensection func x dx precision limit) = Raise BracketingFailed \/
  fst (goldensection func x dx precision limit) = Raise RecursionError.
Proof.
  intros Hp. rewrite goldensection_unfold.
  destruct (bracketing_cases func x dx 64 1 fresh)
    as [[Hb _] | (i & Hi & Hb & _)]; rewrite Hb; [left; reflexivity|].
  right.
  change (_gs func precision limit x ?p None None None None None)
    with (_gs_frame func precision limit (entry x p)).
  rewrite gs_exhausts; [reflexivity|].
  intros m Hm Hle.
  pose proof (norm_nonneg (width (entry x (ray x dx
                (IZR (1 * 2 ^ Z.of_nat i)))))) as Hn.
  assert (0 <= iphi ^ m) by (apply pow_le; pose proof iphi_bounds; lra).
  nra.
Qed.

Lemma negative_precision_never_returns_witness :
  fst (goldensection (fun p : vec => (3 * nth 0 p 0 - 1) ^ 2)
         [0] [1] (-1) 1000) = Raise BracketingFailed \/
  fst (goldensection (fun p : vec => (3 * nth 0 p 0 - 1) ^ 2)
         [0] [1] (-1) 1000) = Raise RecursionError.
Proof.
  apply negative_precision_never_returns. lra.
Defined.

Lemma ray_zero_direction x dx t :
  length x = length dx -> Forall (fun d => d = 0) dx -> ray x dx t = x.
Proof.
  unfold ray, vadd, smul. revert dx.
  induction x as [|a x IH]; intros [|d dx] Hl Hz; simpl in *;
    try discriminate; [reflexivity|].
  inversion Hz; subst. f_equal; [lra | apply IH; [lia | assumption]].
Qed.

(** X3: along a direction all of whose components are zero (the empty
    vector included) every probe is the start itself, so bracketing fails
    after its 64 iterations and 128 evaluations. *)
Theorem zero_direction_fails func x dx precision limit :
  length x = length dx ->
  Forall (fun d => d = 0) dx ->
  fst (goldensection func x dx precision limit) = Raise BracketingFailed /\
  nfev (snd (goldensection func x dx precision limit)) = 128%nat /\
  Forall (fun p => p = x) (invoked (snd (goldensection func x dx precision
                                           limit))).
Proof.
  intros Hlen Hz.
  rewrite goldensection_fails.
  - split; [reflexivity|]. split.
    + unfold after, fresh; cbn [snd nfev]. now rewrite probes_length.
    + unfold after, fresh; cbn [snd invoked app].
      generalize 1%Z, 64%nat. intros t k. revert t.
      induction k as [|k IH]; intros t; simpl; [constructor|].
      constructor; [now apply ray_zero_direction|].
      constructor; [reflexivity | apply IH].
  - intros i Hi. rewrite ray_zero_direction by assumption. lra.
Qed.

Lemma zero_direction_fails_witness :
  fst (goldensection (fun p : vec => (3 * nth 0 p 0 - 1) ^ 2)
         [5; 7] [0; 0] 1 10) = Raise BracketingFailed.
Proof.
  apply (zero_direction_fails (fun p : vec => (3 * nth 0 p 0 - 1) ^ 2)
           [5; 7] [0; 0] 1 10).
  - reflexivity.
  - repeat constructor.
Defined.

Lemma _gs_deeper func precision limit :
  forall a st v st' limit',
    _gs_frame func precision limit a st = (Ok v, st') ->
    (limit <= limit')%nat ->
    _gs_frame func precision limit' a st = (Ok v, st').
Proof.
  induction limit as [|limit IH]; intros a st v st' [|limit'] H Hl;
    try discriminate H; try lia.
  destruct (Rle_dec (norm (width a)) precision) as [Hle | Hgt].
  - rewrite _gs_return in * by assumption. exact H.
  - rewrite _gs_call in * by assumption. eapply IH; eauto. lia.
Qed.

(** X4: a result does not depend on the recursion depth: a search that
    returns with some depth returns the same dictionary, after the same
    evaluations, with every larger one. *)
Theorem goldensection_deeper func x dx precision limit limit' res st :
  goldensection func x dx precision limit = (Ok res, st) ->
  (limit <= limit')%nat ->
  goldensection func x dx precision limit' = (Ok res, st).
Proof.
  intros H Hl. rewrite goldensection_unfold in *.
  destruct (bracketing func x dx 64 1 fresh) as [[t|e] st1];
    [|discriminate H].
  destruct (_gs func precision limit x _ None None None None None st1)
    as [[v|e] st'] eqn:Hgs; [|discriminate H].
  apply (_gs_deeper func precision limit (entry x _) _ _ _ limit') in Hgs;
    [|exact Hl].
  unfold _gs_frame in Hgs; cbn [entry f_x1 f_x4 f_h f_x2 f_x3 f_fx2 f_fx3]
    in Hgs.
  rewrite Hgs. exact H.
Qed.

Lemma goldensection_deeper_witness :
  exists res st,
    goldensection (fun p : vec => (3 * nth 0 p 0 - 1) ^ 2) [0] [1] 1 1000
    = (Ok res, st).
Proof.
  destruct sample_run as (res & st & Hrun).
  exists res, st.
  apply (goldensection_deeper _ [0] [1] 1 1 1000 res st Hrun). lia.
Defined.

(** ** The search stays on its segment of the ray *)

Lemma pow2_bounds j k :
  (j <= k)%nat -> 0 <= IZR (1 * 2 ^ Z.of_nat j) <= IZR (2 ^ Z.of_nat k).
Proof.
  intros Hj. rewrite Z.mul_1_l. split.
  - apply IZR_le, Z.pow_nonneg. lia.
  - apply IZR_le, Z.pow_le_mono_r; lia.
Qed.

Section on_the_segment.

Variable func : vec -> R.
Variables x dx : vec.
Hypothesis Hlen : length x = length dx.

Lemma within_entry t : 0 <= t -> within func x dx t (entry x (ray x dx t)).
Proof.
  intros Ht. exists 0, t.
  split; [lra|]. split; [lra|]. split; [lra|].
  pose proof (on_ray_entry func x dx Hlen 0 t) as He.
  rewrite ray_zero, Rplus_0_l in He by assumption. exact He.
Qed.

Lemma within_next T a :
  within func x dx T a -> within func x dx T (next func a).
Proof.
  intros (lo & w & Hlo & Hw & HT & Hray).
  pose proof iphi_bounds. pose proof iphi2_bounds. pose proof iphi2_iphi.
  destruct (on_ray_next func x dx Hlen _ _ _ Hray) as [[_ Hn] | [_ Hn]].
  - exists lo, (iphi * w).
    split; [lra|]. split; [nra|]. split; [nra | exact Hn].
  - exists (lo + iphi2 * w), (iphi * w).
    split; [nra|]. split; [nra|]. split; [nra | exact Hn].
Qed.

Lemma within_new_points T a :
  within func x dx T a -> Forall (on_segment x dx T) (new_points a).
Proof.
  intros (lo & w & Hlo & Hw & HT & Hray).
  pose proof iphi_bounds. pose proof iphi2_bounds.
  destruct Hray as (_ & _ & _ & H2 & H3 & _).
  assert (on_segment x dx T (probe2 a))
    by (exists (lo + iphi2 * w); split; [nra | exact H2]).
  assert (on_segment x dx T (probe3 a))
    by (exists (lo + iphi * w); split; [nra | exact H3]).
  unfold new_points.
  destruct (f_fx2 a), (f_fx3 a); simpl; repeat constructor; assumption.
Qed.

Lemma within_midpoint T a :
  within func x dx T a ->
  on_segment x dx T (vdivs (vadd (f_x1 a) (f_x4 a)) 2).
Proof.
  intros (lo & w & Hlo & Hw & HT & H1 & H4 & _).
  exists ((lo + (lo + w)) / 2). split; [lra|].
  rewrite H1, H4. now apply ray_mid.
Qed.

Lemma gs_within precision T limit :
  forall a st out st',
    within func x dx T a ->
    _gs_frame func precision limit a st = (out, st') ->
    exists l, st' = after st l /\ Forall (on_segment x dx T) l /\
              forall v, out = Ok v -> on_segment x dx T v.
Proof.
  induction limit as [|limit IH]; intros a st out st' Hin H.
  - inversion H; subst. exists []. rewrite after_nil.
    repeat split; [constructor | discriminate].
  - destruct (Rle_dec (norm (width a)) precision) as [Hle | Hgt].
    + rewrite _gs_return in H by assumption. inversion H; subst.
      exists []. rewrite after_nil. repeat split; [constructor|].
      intros v Hv. inversion Hv; subst. now apply within_midpoint.
    + rewrite _gs_call in H by assumption.
      destruct (IH _ _ _ _ (within_next _ _ Hin) H) as (l & -> & Hl & Hv).
      exists (new_points a ++ l). rewrite after_app.
      repeat split; [|exact Hv].
      apply Forall_app. split; [now apply within_new_points | exact Hl].
Qed.

Lemma probes_on_segment T k :
  0 <= T ->
  forall t,
    (forall j, (j < k)%nat -> 0 <= IZR (t * 2 ^ Z.of_nat j) <= T) ->
    Forall (on_segment x dx T) (probes x dx t k).
Proof.
  intros HT. induction k as [|k IH]; intros t Ht; simpl; [constructor|].
  constructor.
  - exists (IZR t). split; [|reflexivity].
    specialize (Ht 0%nat ltac:(lia)). simpl in Ht.
    now rewrite Z.mul_1_r in Ht.
  - constructor.
    + exists 0. split; [lra | symmetry; now apply ray_zero].
    + apply IH. intros j Hj. rewrite pow2_shift. apply Ht. lia.
Qed.

Lemma on_segment_wider T T' p :
  T <= T' -> on_segment x dx T p -> on_segment x dx T' p.
Proof. intros HT (s & Hs & ->). exists s. split; [lra | reflexivity]. Qed.

(** X5: in exact arithmetic, whatever the objective, the point a search
    returns lies on the ray between the start and the end [x + t*dx] of the
    first bracket, [t = 2^i] being the multiplier bracketing stopped at (the
    first of [1, 2, 4, ...] with [func(x + t*dx) > func(x)]); when no
    component of the direction is zero the step returned is the parameter of
    that point, a number between 0 and [t]. *)
Theorem result_in_first_bracket precision limit res st :
  goldensection func x dx precision limit = (Ok res, st) ->
  exists i s,
    (i < 64)%nat /\
    bracketing func x dx 64 1 fresh
    = (Ok (2 ^ Z.of_nat i)%Z, after fresh (probes x dx 1 (S i))) /\
    func (ray x dx (IZR (2 ^ Z.of_nat i))) > func x /\
    (forall j, (j < i)%nat ->
       func (ray x dx (IZR (2 ^ Z.of_nat j))) <= func x) /\
    0 <= s <= IZR (2 ^ Z.of_nat i) /\
    res_x res = ray x dx s /\
    (Forall (fun d => d <> 0) dx -> res_t res = Some s).
Proof.
  intros Hrun. rewrite goldensection_unfold in Hrun.
  destruct (bracketing_cases func x dx 64 1 fresh)
    as [[Hb _] | (i & Hi & Hb & Hgt & Hmin)]; rewrite Hb in Hrun;
    [discriminate Hrun|].
  assert (Hmin' : forall j, (j < i)%nat ->
            func (ray x dx (IZR (2 ^ Z.of_nat j))) <= func x).
  { intros j Hj. specialize (Hmin j Hj). now rewrite Z.mul_1_l in Hmin. }
  clear Hmin. rewrite Z.mul_1_l in *.
  destruct (_gs func precision limit x _ None None None None None _)
    as [[v|e] st'] eqn:Hgs; simpl in Hrun; [|discriminate Hrun].
  inversion Hrun; subst res st'; clear Hrun.
  assert (Ht : 0 <= IZR (2 ^ Z.of_nat i))
    by (apply IZR_le, Z.pow_nonneg; lia).
  destruct (gs_within precision _ limit (entry x _) _ _ _
              (within_entry _ Ht) Hgs) as (l & _ & _ & Hv).
  destruct (Hv v eq_refl) as (s & Hs & ->).
  exists i, s. cbn [res_x res_t].
  split; [exact Hi|]. split; [exact Hb|]. split; [exact Hgt|].
  split; [exact Hmin'|]. split; [exact Hs|]. split; [reflexivity|].
  intros Hnz. unfold step_of.
  rewrite ray_from_start, vdiv_smul by assumption.
  apply average_const. eapply bracketed_nonempty; eauto.
Qed.

(** X6: every point the objective is called with during a search, whether
    the search returns or raises, lies on the ray at a parameter between 0
    and [2^63]. *)
Theorem evaluations_on_the_ray precision limit :
  Forall (on_segment x dx (IZR (2 ^ 63)))
         (invoked (snd (goldensection func x dx precision limit))).
Proof.
  assert (H63 : 0 <= IZR (2 ^ 63)) by (apply IZR_le; lia).
  rewrite goldensection_unfold.
  destruct (bracketing_cases func x dx 64 1 fresh)
    as [[Hb _] | (i & Hi & Hb & _)]; rewrite Hb.
  - cbn [snd after fresh invoked app].
    apply probes_on_segment; [exact H63|].
    intros j Hj. apply (pow2_bounds j 63). lia.
  - destruct (_gs func precision limit x _ None None None None None _)
      as [out st'] eqn:Hgs.
    rewrite package_snd. cbn [snd].
    assert (Ht : 0 <= IZR (1 * 2 ^ Z.of_nat i))
      by (apply (pow2_bounds i i); lia).
    destruct (gs_within precision _ limit (entry x _) _ _ _
                (within_entry _ Ht) Hgs) as (l & -> & Hl & _).
    cbn [after fresh invoked app]. apply Forall_app. split.
    + apply probes_on_segment; [exact H63|].
      intros j Hj. apply (pow2_bounds j 63). lia.
    + eapply Forall_impl; [|exact Hl].
      intros p. apply on_segment_wider. apply (pow2_bounds i 63). lia.
Qed.

End on_the_segment.

Lemma result_in_first_bracket_witness :
  exists res st i s,
    goldensection (fun p : vec => (3 * nth 0 p 0 - 1) ^ 2) [0] [1] 1 1
    = (Ok res, st) /\
    0 <= s <= IZR (2 ^ Z.of_nat i) /\ res_x res = ray [0] [1] s.
Proof.
  destruct sample_run as (res & st & Hrun).
  destruct (result_in_first_bracket _ [0] [1] eq_refl 1 1 res st Hrun)
    as (i & s & _ & _ & _ & _ & Hs & Hx & _).
  exists res, st, i, s. auto.
Defined.

Lemma evaluations_on_the_ray_witness :
  Forall (on_segment [0] [1] (IZR (2 ^ 63)))
         (invoked (snd (goldensection
                          (fun p : vec => (3 * nth 0 p 0 - 1) ^ 2)
                          [0] [1] 1 1))).
Proof.
  apply (evaluations_on_the_ray _ [0] [1] eq_refl).
Defined.

(** X7: in exact arithmetic and for an objective unimodal along the ray,
    the point returned is within half the precision of the minimiser: the
    minimiser lies in the last
    bracket, whose width is at most the precision, and the point is its
    midpoint. *)
Theorem goldensection_half_precision
    func x dx precision tstar limit res st :
  length x = length dx ->
  0 < precision ->
  unimodal_on_ray func x dx tstar ->
  goldensection func x dx precision limit = (Ok res, st) ->
  norm (vsub (res_x res) (ray x dx tstar)) <= precision / 2.
Proof.
  intros Hlen Hp Hmin Hrun.
  rewrite goldensection_unfold in Hrun.
  destruct (bracketing_cases func x dx 64 1 fresh)
    as [[Hb _] | (i & Hi & Hb & Hgt & _)]; rewrite Hb in Hrun;
    [discriminate Hrun|].
  destruct (_gs func precision limit x _ None None None None None _)
    as [[v|e] st'] eqn:Hgs; simpl in Hrun; [|discriminate Hrun].
  inversion Hrun; subst res st'; clear Hrun. cbn [res_x].
  apply (_gs_result func precision limit (entry x _)) in Hgs.
  destruct Hgs as (a & Hgsr & Hle & ->).
  assert (Ht : 0 <= IZR (1 * 2 ^ Z.of_nat i))
    by (apply (pow2_bounds i i); lia).
  pose proof (gs_run_brackets func x dx Hlen tstar Hmin precision _ _ _ _
                ltac:(lra) Hgsr (brackets_entry func x dx Hlen tstar Hmin _
                                    Ht Hgt))
    as (lo & w & Hlo & Hin & H1 & H4 & Hwd & _).
  rewrite H1, H4, ray_mid, ray_dist by assumption.
  rewrite Hwd, norm_smul in Hle.
  pose proof (norm_nonneg dx) as Hn.
  apply Rle_trans with (Rabs w / 2 * norm dx); [|lra].
  apply Rmult_le_compat_r; [exact Hn|].
  unfold Rabs. destruct (Rcase_abs _), (Rcase_abs _); lra.
Qed.

Lemma goldensection_half_precision_witness :
  exists limit res st,
    goldensection (fun p : vec => (3 * nth 0 p 0 - 1) ^ 2) [0] [1] (1 / 2)
                  limit = (Ok res, st) /\
    norm (vsub (res_x res) (ray [0] [1] (1 / 3))) <= 1 / 2 / 2.
Proof.
  destruct (goldensection_returns (fun p : vec => (3 * nth 0 p 0 - 1) ^ 2)
              [0] [1] (1 / 2) 0) as [N HN];
    [lra | lia | simpl; lra |].
  destruct (HN N (Nat.le_refl N)) as (res & st & Hrun).
  exists N, res, st. split; [exact Hrun|].
  apply (goldensection_half_precision
           (fun p : vec => (3 * nth 0 p 0 - 1) ^ 2)
           [0] [1] (1 / 2) (1 / 3) N res st).
  - reflexivity.
  - lra.
  - unfold unimodal_on_ray, ray; simpl. split; [lra|].
    split; intros s t Hs Hst; [intros Ht|]; nra.
  - exact Hrun.
Defined.

(** ** least_squares: every outcome *)

Lemma matmul_coerce self x :
  nrows (coerce x) = ncols (A self) ->
  exists e,
    matmul (A self) (coerce x) = Ok (Matrix (nrows (A self)) 1 e) /\
    length e = nrows (A self).
Proof.
  intros H. unfold matmul. rewrite <- H, Nat.eqb_refl, coerce_ncols.
  eexists. split; [reflexivity|].
  rewrite (flat_map_single
             (fun i j => dot (row (A self) i) (col (coerce x) j))).
  now rewrite length_map, length_seq.
Qed.

Lemma broadcast_dim_one c : broadcast_dim 1 c = Some c.
Proof.
  unfold broadcast_dim. destruct (1 =? c)%nat eqn:E; [|reflexivity].
  apply Nat.eqb_eq in E. now subst.
Qed.

(** X8: a call whose shape test passes never fails in the matrix product.
    It raises numpy's broadcasting error exactly when the row counts of [A]
    and [b] differ and neither is one, the error naming the shape
    [(rows of A, 1)] of the product and the shape of [b]; otherwise it
    returns a number that is not negative.  In both cases the instance is
    left as it was. *)
Theorem call_outcomes self x :
  nrows (coerce x) = ncols (A self) ->
  (broadcast_dim (nrows (A self)) (nrows (b self)) = None ->
   __call__ x self
   = (Raise (BroadcastError (nrows (A self), 1%nat) (shape (b self))),
      self)) /\
  (broadcast_dim (nrows (A self)) (nrows (b self)) <> None ->
   exists v, __call__ x self = (Ok v, self) /\ 0 <= v).
Proof.
  intros Hx. rewrite __call___match by exact Hx.
  destruct (matmul_coerce self x Hx) as (e & -> & _).
  unfold msub. cbn [nrows ncols]. rewrite broadcast_dim_one.
  split; intros H.
  - rewrite H. reflexivity.
  - destruct (broadcast_dim (nrows (A self)) (nrows (b self)));
      [|contradiction].
    eexists. split; [reflexivity|].
    rewrite norm_sq. apply sumsq_nonneg.
Qed.

Lemma call_outcomes_witness :
  let self := __init__ (Matrix 2 1 [1; 1]) (Matrix 2 1 [0; 3]) in
  exists v, __call__ (Sequence [2]) self = (Ok v, self) /\ 0 <= v.
Proof.
  intros self.
  apply (proj2 (call_outcomes self (Sequence [2]) eq_refl)).
  discriminate.
Defined.

Lemma call_residual self x :
  wf_arg x ->
  count x = ncols (A self) ->
  ncols (b self) = 1%nat ->
  nrows (b self) = nrows (A self) ->
  __call__ x self
  = (Ok (residual_sq (A self) (entries (b self)) (values x)), self).
Proof.
  intros Hwf Hcount Hbc Hbr.
  assert (Hlen : length (values x) = ncols (A self)).
  { rewrite <- Hcount. destruct x; reflexivity. }
  rewrite __call___match
    by (rewrite coerce_nrows by assumption; exact Hcount).
  rewrite coerce_column, matmul_column by assumption.
  destruct (b self) as [bk bc be] eqn:Eb. simpl in Hbc, Hbr. subst bk bc.
  rewrite msub_columns. simpl entries.
  rewrite norm_sq. unfold residual_sq. do 3 f_equal.
  apply map_ext_in. intros i Hi. apply in_seq in Hi.
  rewrite nth_map_seq by lia. reflexivity.
Qed.

Lemma sumsq_zero l : sumsq l = 0 <-> Forall (fun a => a = 0) l.
Proof.
  induction l as [|a l IH]; simpl.
  - split; [constructor | reflexivity].
  - pose proof (sumsq_nonneg l). split.
    + intros H0. assert (a * a = 0 /\ sumsq l = 0) as [Ha Hl] by nra.
      constructor; [nra | now apply IH].
    + intros HF. inversion HF; subst. apply IH in H3. nra.
Qed.

(** X9: for an instance whose [b] is a column with as many rows as [A] and
    a query with as many values as [A] has columns, the value returned is 0
    exactly when the query solves the system: each row of [A] times the
    query equals the entry of [b] in that row. *)
Theorem zero_iff_solution self x :
  wf_arg x ->
  count x = ncols (A self) ->
  ncols (b self) = 1%nat ->
  nrows (b self) = nrows (A self) ->
  (__call__ x self = (Ok 0, self) <->
   forall i, (i < nrows (A self))%nat ->
     dot (row (A self) i) (values x) = nth i (entries (b self)) 0).
Proof.
  intros Hwf Hc Hbc Hbr. rewrite call_residual by assumption.
  unfold residual_sq. split.
  - intros H i Hi. injection H as H0. apply sumsq_zero in H0.
    rewrite Forall_forall in H0.
    assert (dot (row (A self) i) (values x) - nth i (entries (b self)) 0 = 0);
      [|lra].
    apply H0. apply in_map_iff. exists i. split; [reflexivity|].
    apply in_seq. lia.
  - intros H. do 2 f_equal. apply sumsq_zero, Forall_forall.
    intros r Hr. apply in_map_iff in Hr. destruct Hr as (i & <- & Hi).
    apply in_seq in Hi. rewrite H by lia. lra.
Qed.

Lemma zero_iff_solution_witness :
  let self := __init__ (Matrix 2 2 [1; 0; 0; 1]) (Matrix 2 1 [4; 5]) in
  __call__ (Sequence [4; 5]) self = (Ok 0, self).
Proof.
  intros self.
  apply (proj2 (zero_iff_solution self (Sequence [4; 5]) I eq_refl eq_refl
                  eq_refl)).
  intros i Hi. destruct i as [|[|i]]; [| |simpl in Hi; lia];
    unfold dot, row; simpl; lra.
Defined.

Lemma dot_zeros u v : Forall (fun a => a = 0) v -> dot u v = 0.
Proof.
  unfold dot. revert v. induction u as [|a u IH]; intros [|c v] H; simpl;
    try reflexivity.
  inversion H; subst. rewrite IH by assumption. lra.
Qed.

(** X10: at a query all of whose values are zero (for an [A] without
    columns: the empty query) the value returned is the sum of the squares
    of the entries of [b]. *)
Theorem value_at_zero self x :
  wf_arg x ->
  count x = ncols (A self) ->
  ncols (b self) = 1%nat ->
  nrows (b self) = nrows (A self) ->
  length (entries (b self)) = nrows (b self) ->
  Forall (fun a => a = 0) (values x) ->
  __call__ x self = (Ok (sumsq (entries (b self))), self).
Proof.
  intros Hwf Hc Hbc Hbr Hbl Hz. rewrite call_residual by assumption.
  unfold residual_sq. do 2 f_equal.
  transitivity (sumsq (map (fun i => nth i (entries (b self)) 0)
                           (seq 0 (nrows (A self))))).
  - induction (seq 0 (nrows (A self))) as [|i l IH]; [reflexivity|].
    simpl. rewrite IH, dot_zeros by assumption. lra.
  - now rewrite <- Hbr, <- Hbl, map_nth_seq.
Qed.

Lemma value_at_zero_witness :
  let self := __init__ (Matrix 2 2 [1; 2; 3; 4]) (Matrix 2 1 [4; 5]) in
  __call__ (Sequence [0; 0]) self = (Ok (sumsq [4; 5]), self).
Proof.
  intros self.
  apply (value_at_zero self (Sequence [0; 0]));
    first [exact I | reflexivity | repeat constructor].
Defined.

Lemma broadcast_dim_one_r k : broadcast_dim k 1 = Some k.
Proof.
  unfold broadcast_dim. destruct (k =? 1)%nat; reflexivity.
Qed.

Lemma flat_map_ext_in {T U} (f g : T -> list U) (l : list T) :
  (forall a, In a l -> f a = g a) -> flat_map f l = flat_map g l.
Proof.
  induction l as [|a l IH]; intros H; simpl; [reflexivity|].
  rewrite H by (left; reflexivity). f_equal. apply IH.
  intros c Hc. apply H. right. exact Hc.
Qed.

Lemma bcast_at_row c e i j :
  (j < c)%nat -> bcast_at (Matrix 1 c e) i j = nth j e 0.
Proof.
  intros Hj. unfold bcast_at; simpl.
  destruct (c =? 1)%nat eqn:Ec; f_equal.
  apply Nat.eqb_eq in Ec. lia.
Qed.

(** X11: when [b] has a single row (a row vector, or a single number) the
    call does not fail: numpy broadcasts the column [A*xs] against the row,
    and the value returned is the sum, over every row [i] of [A] and every
    entry [j] of [b], of [(A[i]*xs - b[j])^2]. *)
Theorem row_b_broadcasts self x :
  wf_arg x ->
  count x = ncols (A self) ->
  nrows (b self) = 1%nat ->
  __call__ x self
  = (Ok (sumsq
           (flat_map
              (fun i => map (fun j => dot (row (A self) i) (values x)
                                      - nth j (entries (b self)) 0)
                            (seq 0 (ncols (b self))))
              (seq 0 (nrows (A self))))),
     self).
Proof.
  intros Hwf Hcount Hb1.
  assert (Hlen : length (values x) = ncols (A self)).
  { rewrite <- Hcount. destruct x; reflexivity. }
  rewrite __call___match
    by (rewrite coerce_nrows by assumption; exact Hcount).
  rewrite coerce_column, matmul_column by assumption.
  destruct (b self) as [bk bc be] eqn:Eb. simpl in Hb1. subst bk.
  unfold msub. cbn [nrows ncols].
  rewrite broadcast_dim_one_r, broadcast_dim_one. cbn [entries].
  rewrite norm_sq. do 3 f_equal.
  apply flat_map_ext_in. intros i Hi. apply in_seq in Hi.
  apply map_ext_in. intros j Hj. apply in_seq in Hj.
  rewrite bcast_at_row by lia.
  change (bcast_at (Matrix (nrows (A self)) 1 ?e) i j)
    with (bcast_at (Matrix (nrows (A self)) 1 e) i 0).
  rewrite bcast_at_column, nth_map_seq by lia. reflexivity.
Qed.

Lemma row_b_broadcasts_witness :
  let self := __init__ (Matrix 2 1 [1; 1]) (Matrix 1 3 [0; 1; 2]) in
  exists v, __call__ (Sequence [1]) self = (Ok v, self).
Proof.
  intros self. eexists.
  apply (row_b_broadcasts self (Sequence [1]) I eq_refl eq_refl).
Defined.

(** X12: the class as the notebook loads it the second time behaves as the
    first does, except that every call, whether it returns or raises, first
    prints one line: the row count of the coerced [x] and the column count
    of [A]. *)
Theorem reloaded_call_prints x self out :
  __call___reloaded x (self, out)
  = (fst (__call__ x self),
     (self, out ++ [(nrows (coerce x), ncols (A self))])) /\
  snd (__call__ x self) = self.
Proof.
  unfold __call___reloaded, __call__, bind, attr, print, lift, raise, ret.
  cbn [fst snd].
  destruct (negb (nrows (coerce x) =? ncols (A self))%nat); cbn [fst snd];
    [split; reflexivity|].
  destruct (matmul (A self) (coerce x)) as [p|e]; cbn [fst snd];
    [|split; reflexivity].
  destruct (msub p (b self)) as [d|e]; split; reflexivity.
Qed.

(** ** Only comparisons of values matter *)

Section monotone.

Variable func : vec -> R.
Variable g : R -> R.
Hypothesis Hg : forall u v, g u < g v <-> u < v.

Let gfunc : vec -> R := fun p => g (func p).

Lemma map_frame_width a : width (map_frame g a) = width a.
Proof. reflexivity. Qed.

Lemma map_frame_new_points a : new_points (map_frame g a) = new_points a.
Proof.
  unfold new_points, probe2, probe3, map_frame; simpl.
  destruct (f_fx2 a), (f_fx3 a); reflexivity.
Qed.

Lemma map_frame_value2 a : value2 gfunc (map_frame g a) = g (value2 func a).
Proof. unfold value2, map_frame; simpl. destruct (f_fx2 a); reflexivity. Qed.

Lemma map_frame_value3 a : value3 gfunc (map_frame g a) = g (value3 func a).
Proof. unfold value3, map_frame; simpl. destruct (f_fx3 a); reflexivity. Qed.

Lemma map_frame_next a :
  next gfunc (map_frame g a) = map_frame g (next func a).
Proof.
  unfold next. rewrite map_frame_value2, map_frame_value3.
  destruct (Rlt_dec (g (value2 func a)) (g (value3 func a))) as [H|H],
           (Rlt_dec (value2 func a) (value3 func a)) as [H'|H'];
    try reflexivity.
  - apply (proj1 (Hg _ _)) in H. contradiction.
  - apply (proj2 (Hg _ _)) in H'. contradiction.
Qed.

Lemma _gs_monotone precision limit :
  forall a st,
    _gs_frame gfunc precision limit (map_frame g a) st
    = _gs_frame func precision limit a st.
Proof.
  induction limit as [|limit IH]; intros a st; [reflexivity|].
  destruct (Rle_dec (norm (width a)) precision) as [Hle | Hgt].
  - rewrite !_gs_return by (rewrite ?map_frame_width; assumption).
    reflexivity.
  - rewrite !_gs_call by (rewrite ?map_frame_width; assumption).
    rewrite map_frame_next, map_frame_new_points. apply IH.
Qed.

Lemma bracketing_monotone x dx n :
  forall t st,
    bracketing gfunc x dx n t st = bracketing func x dx n t st.
Proof.
  induction n as [|n IH]; intros t st; [reflexivity|].
  destruct (Rgt_dec (func (ray x dx (IZR t))) (func x)) as [Hgt | Hle].
  - rewrite !bracketing_step_up; [reflexivity | assumption |].
    unfold gfunc. apply (proj2 (Hg _ _)). exact Hgt.
  - rewrite !bracketing_step_on; [apply IH | lra |].
    unfold gfunc. apply Rnot_lt_le. intros H.
    apply (proj1 (Hg _ _)) in H. apply Hle, H.
Qed.

(** X13: the search looks at the objective only through comparisons of its
    values: composing the objective with a strictly increasing function
    changes nothing in the outcome of a call, neither the point, the step
    and the count returned or the exception raised, nor the points
    evaluated. *)
Theorem goldensection_monotone x dx precision limit :
  goldensection (fun p => g (func p)) x dx precision limit
  = goldensection func x dx precision limit.
Proof.
  fold gfunc. rewrite !goldensection_unfold, bracketing_monotone.
  destruct (bracketing func x dx 64 1 fresh) as [[t|e] st]; [|reflexivity].
  f_equal.
  apply (_gs_monotone precision limit (entry x (ray x dx (IZR t)))).
Qed.

End monotone.

Lemma goldensection_monotone_witness :
  goldensection (fun p : vec => 2 * ((3 * nth 0 p 0 - 1) ^ 2) + 7)
                [0] [1] (1 / 2) 10
  = goldensection (fun p : vec => (3 * nth 0 p 0 - 1) ^ 2)
                  [0] [1] (1 / 2) 10.
Proof.
  apply (goldensection_monotone (fun p : vec => (3 * nth 0 p 0 - 1) ^ 2)
           (fun v => 2 * v + 7)).
  intros u v. lra.
Defined.

(** X14: whatever form a well-formed query is given in (a sequence, an
    array of one axis, a row, a column, an array of more axes), when the
    number of its values is not the number of columns of [A] the error
    raised names the shape of [A] and the shape [(number of values, 1)] of
    the column the query was turned into. *)
Theorem mismatch_reports_column self x :
  wf_arg x ->
  count x <> ncols (A self) ->
  __call__ x self
  = (Raise (ShapeMismatch (shape (A self)) (count x, 1%nat)), self).
Proof.
  intros Hwf Hne.
  rewrite __call___mismatch by (rewrite coerce_nrows; assumption).
  unfold shape at 2. now rewrite coerce_nrows, coerce_ncols.
Qed.

Lemma mismatch_reports_column_witness :
  let self := __init__ (Matrix 1 2 [1; 2]) (Matrix 1 1 [0]) in
  __call__ (Array (NdArray [1%nat; 3%nat] [1; 2; 3])) self
  = (Raise (ShapeMismatch (1%nat, 2%nat) (3%nat, 1%nat)), self).
Proof.
  intros self.
  apply (mismatch_reports_column self
           (Array (NdArray [1%nat; 3%nat] [1; 2; 3]))).
  - reflexivity.
  - simpl. lia.
Defined.

(** ** The search over binary64 numbers *)

(** Scenario A over binary64 numbers: [(p - 3)**2] from 0 along 1 with
    precision 1e-6 takes 43 evaluations and ends 1.6e-7 from 3. *)
#[warnings="-inexact-float"]
Example float_scenario_a :
  fst (Float64.goldensection
         (fun p => let d := (nth 0 p 0 - 3)%float in (d * d)%float)
         [0%float] [1%float] 1e-6%float 1000)
  = Ok {| Float64.res_x := [2.9999998360913671%float];
          Float64.res_t := 2.9999998360913671%float;
          Float64.res_nfev := 43 |}.
Proof. vm_compute. reflexivity. Qed.

(** C1, as it fails over binary64 numbers: the objective [(p - 1e10)**2] is
    unimodal along the ray from 0 in the direction 1, with its minimum at
    [1e10]; the search with precision 1e-6 returns, after 153 evaluations,
    the point 10000000000.000004, which is more than 1e-6 (and more than
    three times 1e-6) away from [1e10]. *)
#[warnings="-inexact-float"]
Lemma float_search_misses_minimiser :
  unimodal_on_ray (fun p => (nth 0 p 0 - 10000000000) ^ 2) [0] [1]
                  10000000000 /\
  fst (Float64.goldensection Float64.parabola_far
         [0%float] [1%float] 1e-6%float 1000)
  = Ok {| Float64.res_x := [10000000000.000004%float];
          Float64.res_t := 10000000000.000004%float;
          Float64.res_nfev := 153 |} /\
  (1e-6 <? abs (10000000000.000004 - 1e10))%float = true /\
  (3 * 1e-6 <? abs (10000000000.000004 - 1e10))%float = true.
Proof.
  split.
  - unfold unimodal_on_ray, ray; simpl. split; [lra|].
    split; intros s t Hs Hst; [intros Ht|]; nra.
  - split; [vm_compute; reflexivity|].
    split; vm_compute; reflexivity.
Qed.

